(** * Neighbour search of non-bonded-periodic (nbp/neighbours.py, nbp/sysmodule.py)

    A shallow embedding of the linked-cell neighbour search of the
    [Neighbours] class, of the two periodic helpers of neighbours.py, of
    the constructor of [SystemInfo] and of the state list of [System].

    Numbers.  The program computes on NumPy/Python floats.  The embedding
    uses exact arithmetic: coordinates, lengths and radii are rationals
    ([Q]), subcell and particle ids are integers ([Z]).  The two places that
    take a square root ([np.linalg.norm] and [np.sqrt]) produce an
    [npfloat]: a square root kept exactly through its radicand, or [NaN].
    Rounding of floats is not modelled. *)

From Stdlib Require Import Reals Qreals Lra.
From Stdlib Require Import ZArith QArith Qround Qabs Qminmax Lia Lqa List.
From stdpp Require Import gmap list.

Local Open Scope Z_scope.

(** ** Python results: a value, a raised exception, or a loop that never ends *)

Inductive exn : Type :=
| ValueError
| IndexError
| KeyError
| AttributeError
| ZeroDivisionError.

Inductive result (A : Type) : Type :=
| Ok (a : A)
| Raise (e : exn)
| Diverge.

Arguments Ok {A} a.
Arguments Raise {A} e.
Arguments Diverge {A}.

Definition rbind {A B : Type} (r : result A) (k : A -> result B) : result B :=
  match r with
  | Ok a => k a
  | Raise e => Raise e
  | Diverge => Diverge
  end.

Notation "'let?' x := r 'in' k" := (rbind r (fun x => k))
  (at level 10, x pattern, r at level 100, k at level 200).

(** Run [r]; when it raises (or never returns) the statement is left with
    the state [s] reached so far. *)
Definition attempt {A B S : Type} (r : result A) (s : S) (k : A -> result B * S)
    : result B * S :=
  match r with
  | Ok a => k a
  | Raise e => (Raise e, s)
  | Diverge => (Diverge, s)
  end.

(** [d[k]] for a dictionary. *)
Definition dict_getitem {V : Type} (d : gmap Z V) (k : Z) : result V :=
  match d !! k with
  | Some v => Ok v
  | None => Raise KeyError
  end.

(** [l[i]] for a Python list or a NumPy array: negative indices count from
    the end, anything else out of range raises IndexError. *)
Definition py_index {A : Type} (l : list A) (i : Z) : result A :=
  let n := Z.of_nat (length l) in
  let k := if i <? 0 then n + i else i in
  if (0 <=? k) && (k <? n) then
    match l !! Z.to_nat k with
    | Some a => Ok a
    | None => Raise IndexError
    end
  else Raise IndexError.

(** [l[i] = v], with the same index rule. *)
Definition py_setitem {A : Type} (l : list A) (i : Z) (v : A) : result (list A) :=
  let n := Z.of_nat (length l) in
  let k := if i <? 0 then n + i else i in
  if (0 <=? k) && (k <? n) then Ok (<[Z.to_nat k := v]> l)
  else Raise IndexError.

(** [range(n)] *)
Definition range (n : Z) : list Z := map Z.of_nat (seq 0 (Z.to_nat n)).

(** ** Numbers *)

Definition Qltb (a b : Q) : bool := negb (Qle_bool b a).

(** The value of a square root: [Sqrt q] stands for the non-negative real
    whose square is [q]; [NaN] is what [np.sqrt] gives for a negative
    argument. *)
Inductive npfloat : Type :=
| Sqrt (radicand : Q)
| NaN.

(** [np.sqrt(q)] *)
Definition np_sqrt (q : Q) : npfloat :=
  if Qle_bool 0 q then Sqrt q else NaN.

(** [c < x] for a rational [c] and a square root [x]; false on NaN. *)
Definition Q_lt_np (c : Q) (x : npfloat) : bool :=
  match x with
  | Sqrt q => Qltb c 0 || Qltb (c * c) q
  | NaN => false
  end.

(** [x <= c]; false on NaN. *)
Definition np_le_Q (x : npfloat) (c : Q) : bool :=
  match x with
  | Sqrt q => Qle_bool 0 c && Qle_bool q (c * c)
  | NaN => false
  end.

(** A particle position: one row of the positions array. *)
Record pos : Type := mk_pos { px : Q; py : Q; pz : Q }.

(** [np.linalg.norm(np.array([x, y, z]))] *)
Definition norm (x y z : Q) : npfloat := Sqrt (x * x + y * y + z * z)%Q.

(** ** sysmodule.SystemInfo *)

(** What [Neighbours] reads from its [system_info] argument: the values of
    [char_length()], [cutoff()], [worse_sigma()] and [num_particles()].
    The last two methods are called by neighbours.py but are not defined
    by the SystemInfo class of sysmodule.py; their values are parameters
    of the model. *)
Record SystemInfo : Type := mk_SystemInfo {
  char_length : Q;
  cutoff : Q;
  worse_sigma : Q;
  num_particles : Z
}.

(** [SystemInfo.__init__(characteristic_length, sigma, ...)]: the cutoff
    radius is [3 * sigma], the box length is rounded up to a multiple of
    the cutoff radius, and a cutoff above half the box is refused. *)
Definition SystemInfo_init (characteristic_length sigma : Q)
    (worse : Q) (num : Z) : result SystemInfo :=
  let _cutoff_radius := (sigma * 3)%Q in
  if Qeq_bool _cutoff_radius 0 then Raise ZeroDivisionError else
  let _char_length :=
    (inject_Z (Qceiling (characteristic_length / _cutoff_radius)) * _cutoff_radius)%Q in
  if negb (Qle_bool _cutoff_radius (_char_length / 2)) then Raise ValueError
  else Ok (mk_SystemInfo _char_length _cutoff_radius worse num).

(** ** neighbours.Neighbours *)

Record Neighbours : Type := mk_Neighbours {
  info : SystemInfo;                              (* self.SystemInfo *)
  positions : list pos;                           (* self.SystemState.positions() *)
  _box_length : Q;
  _skin_radius : Q;
  _subcells_inrow : Z;
  _subcell_length : Q;
  _start_index : list Z;
  _neighbour_list : list Z;
  _neighbours_frame_IDs : gmap Z (list Z);
  _neighbours_frame_dist : gmap Z (list npfloat);
  _last_update : Z;
  _update_count : Z
}.

(** *** _create_subcells *)

(** The while loop of [_create_subcells], started from [m]; [fuel] bounds
    the number of tests of the loop condition. *)
Fixpoint _create_subcells_loop (fuel : nat) (skin box : Q) (m : Z) : result Z :=
  match fuel with
  | O => Diverge
  | S fuel' =>
      if Qltb skin (box / inject_Z m) then _create_subcells_loop fuel' skin box (m + 1)
      else Ok m
  end.

(** Returns the new [_subcells_inrow] and the subcell length. *)
Definition _create_subcells (fuel : nat) (skin box : Q) (m0 : Z) : result (Z * Q) :=
  let? m := _create_subcells_loop fuel skin box m0 in
  Ok (m, (box / inject_Z m)%Q).

(** *** _find_subcell *)

(** The floor of each coordinate over the subcell length, ValueError on a
    negative one, else the linear id.  The OverflowError the source catches
    needs an infinite coordinate and has no counterpart on rationals. *)
Definition _find_subcell (m : Z) (sl : Q) (position : pos) : result Z :=
  let x := Qfloor (px position / sl) in
  let y := Qfloor (py position / sl) in
  let z := Qfloor (pz position / sl) in
  if (x <? 0) || (y <? 0) || (z <? 0) then Raise ValueError
  else Ok (x + y * m + z * m ^ 2).

(** *** _create_neighbours *)

(** One turn of the loop body after [subcell_id] is known: the try block
    and its [except IndexError: pass]. *)
Definition link_particle (st : list Z * list Z) (i subcell_id : Z) : list Z * list Z :=
  let '(start_index, neighbour_list) := st in
  match py_index start_index subcell_id with
  | Ok head =>
      match py_setitem neighbour_list i head with
      | Ok neighbour_list' =>
          match py_setitem start_index subcell_id i with
          | Ok start_index' => (start_index', neighbour_list')
          | _ => (start_index, neighbour_list')
          end
      | _ => st
      end
  | _ => st
  end.

(** The for loop over the particles, [i] being the id of the first
    position of [ps]. *)
Fixpoint _create_neighbours_loop (m : Z) (sl : Q) (ps : list pos) (i : Z)
    (st : list Z * list Z) : result (list Z * list Z) :=
  match ps with
  | [] => Ok st
  | p :: ps' =>
      let? subcell_id := _find_subcell m sl p in
      _create_neighbours_loop m sl ps' (i + 1) (link_particle st i subcell_id)
  end.

(** Returns [(_start_index, _neighbour_list)]. *)
Definition _create_neighbours (m : Z) (sl : Q) (ps : list pos) : result (list Z * list Z) :=
  let start_index := replicate (Z.to_nat (m ^ 3)) (-1) in
  let neighbour_list := replicate (length ps) (-1) in
  _create_neighbours_loop m sl ps 0 (start_index, neighbour_list).

(** *** _get_neighbours_subcells and its helpers *)

Definition _3d_subcell_id (sl : Q) (p : pos) : Z * Z * Z :=
  (Qfloor (px p / sl), Qfloor (py p / sl), Qfloor (pz p / sl)).

Definition _cell_y (sl : Q) (positive : Z) (p : pos) : Z :=
  if positive =? 0 then Qfloor ((py p + sl) / sl) else Qfloor ((py p - sl) / sl).

Definition _cell_z (sl : Q) (positive : Z) (p : pos) : Z :=
  if positive =? 0 then Qfloor ((pz p + sl) / sl) else Qfloor ((pz p - sl) / sl).

Definition cell_in (cell : Z) (cells : list Z) : bool := existsb (Z.eqb cell) cells.

(** Row [cell] of [subcells_id_3d] after the assignment loops. *)
Definition subcells_id_3d (sl : Q) (p : pos) (cell : Z) : Z * Z * Z :=
  let '(x0, y0, z0) := _3d_subcell_id sl p in
  let x :=
    if cell <? 9 then Qfloor ((px p - sl) / sl)
    else if 18 <=? cell then Qfloor ((px p + sl) / sl)
    else x0 in
  let y :=
    if cell_in cell [0; 1; 2; 9; 10; 11; 18; 19; 20] then _cell_y sl 1 p
    else if cell_in cell [6; 7; 8; 15; 16; 17; 24; 25; 26] then _cell_y sl 0 p
    else y0 in
  let z :=
    if cell_in cell [0; 3; 6; 9; 12; 15; 18; 21; 24] then _cell_z sl 1 p
    else if cell_in cell [2; 5; 8; 11; 14; 17; 20; 23; 26] then _cell_z sl 0 p
    else z0 in
  (x, y, z).

(** The two out-of-bounds tests applied to one coordinate. *)
Definition wrap_coordinate (m v : Z) : Z :=
  let v1 := if v <? 0 then m - 1 else v in
  if v1 >? m - 1 then 0 else v1.

Definition neighbour_subcell (m : Z) (sl : Q) (p : pos) (cell : Z) : Z :=
  let '(x, y, z) := subcells_id_3d sl p cell in
  wrap_coordinate m x + wrap_coordinate m y * m + wrap_coordinate m z * m ^ 2.

Definition _get_neighbours_subcells (m : Z) (sl : Q) (particle_pos : pos) : list Z :=
  map (neighbour_subcell m sl particle_pos) (range 27).

(** *** _neighbours_for_one *)

(** The inner while loop: follow the linked list from [index] until a
    negative entry.  A walk over more entries than the list has must repeat
    one and so never ends. *)
Fixpoint walk_chain (fuel : nat) (neighbour_list : list Z) (index : Z) : result (list Z) :=
  if index <? 0 then Ok []
  else
    match fuel with
    | O => Diverge
    | S fuel' =>
        let? next := py_index neighbour_list index in
        let? rest := walk_chain fuel' neighbour_list next in
        Ok (index :: rest)
    end.

(** The loop over the 27 neighbour subcells, filling [neighbours]. *)
Fixpoint collect_neighbours (start_array neighbour_list : list Z) (cells : list Z)
    : result (list Z) :=
  match cells with
  | [] => Ok []
  | i :: cells' =>
      let? index := py_index start_array i in
      let? chain := walk_chain (length neighbour_list) neighbour_list index in
      let? rest := collect_neighbours start_array neighbour_list cells' in
      Ok (chain ++ rest)
  end.

(** The boundary correction of one axis distance, [l] being twice the
    subcell length. *)
Definition correct_distance (box l d : Q) : Q :=
  if Qltb l d then (box - d)%Q else d.

(** The distance computed for a candidate. *)
Definition distance_to (box sl : Q) (particle_pos p : pos) : npfloat :=
  let l := (2 * sl)%Q in
  norm (correct_distance box l (Qabs (px particle_pos - px p)))
       (correct_distance box l (Qabs (py particle_pos - py p)))
       (correct_distance box l (Qabs (pz particle_pos - pz p))).

(** The loop over the collected candidates; returns
    [(new_neighbours, neighbours_distance)]. *)
Fixpoint keep_neighbours (self : Neighbours) (particle_ID : Z) (particle_pos : pos)
    (neighbours : list Z) : result (list Z * list npfloat) :=
  match neighbours with
  | [] => Ok ([], [])
  | index :: rest =>
      if index >? particle_ID then
        let? p := py_index (positions self) index in
        let distance := distance_to (_box_length self) (_subcell_length self) particle_pos p in
        let? r := keep_neighbours self particle_ID particle_pos rest in
        if Q_lt_np 0 distance && np_le_Q distance (cutoff (info self))
        then Ok (index :: r.1, distance :: r.2)
        else Ok r
      else keep_neighbours self particle_ID particle_pos rest
  end.

(** Returns the named tuple [(nb_ID, nb_dist)]. *)
Definition _neighbours_for_one (self : Neighbours) (particle_ID : Z)
    : result (list Z * list npfloat) :=
  let? particle_pos := py_index (positions self) particle_ID in
  let neighbour_subcells :=
    _get_neighbours_subcells (_subcells_inrow self) (_subcell_length self) particle_pos in
  let? neighbours :=
    collect_neighbours (_start_index self) (_neighbour_list self) neighbour_subcells in
  keep_neighbours self particle_ID particle_pos neighbours.

(** *** _create_neighbours_frame *)

(** The two dictionaries [_neighbours_frame_IDs] and [_neighbours_frame_dist]. *)
Definition frame : Type := gmap Z (list Z) * gmap Z (list npfloat).

(** The entry of particle [i] itself.  A named tuple of two fields is never
    false, so the branch under [if not nb] is never taken. *)
Definition frame_own (fr : frame) (i : Z) (nb : list Z * list npfloat)
    : result unit * frame :=
  let '(ids, ds) := fr in
  match ids !! i with
  | None => (Ok tt, (<[i := nb.1]> ids, <[i := nb.2]> ds))
  | Some existing_IDs =>
      attempt (dict_getitem ds i) fr (fun existing_dist =>
        (Ok tt, (<[i := existing_IDs ++ nb.1]> ids, <[i := existing_dist ++ nb.2]> ds)))
  end.

(** One turn of [for count, nb_index in enumerate(nb.nb_ID)]. *)
Definition frame_other (fr : frame) (i : Z) (nb_dist : list npfloat) (count nb_index : Z)
    : result unit * frame :=
  let '(ids, ds) := fr in
  match ids !! nb_index with
  | None =>
      let ids' := <[nb_index := [i]]> ids in
      attempt (py_index nb_dist count) (ids', ds) (fun d =>
        (Ok tt, (ids', <[nb_index := [d]]> ds)))
  | Some existing_IDs =>
      attempt (dict_getitem ds nb_index) fr (fun existing_dist =>
      attempt (py_index nb_dist count) fr (fun d =>
        (Ok tt, (<[nb_index := existing_IDs ++ [i]]> ids,
                 <[nb_index := existing_dist ++ [d]]> ds))))
  end.

Fixpoint frame_others (fr : frame) (i : Z) (nb_dist : list npfloat) (count : Z)
    (nb_ID : list Z) : result unit * frame :=
  match nb_ID with
  | [] => (Ok tt, fr)
  | nb_index :: rest =>
      match frame_other fr i nb_dist count nb_index with
      | (Ok _, fr') => frame_others fr' i nb_dist (count + 1) rest
      | stopped => stopped
      end
  end.

(** The body of the loop over the particles. *)
Definition frame_particle (self : Neighbours) (fr : frame) (i : Z) : result unit * frame :=
  attempt (_neighbours_for_one self i) fr (fun nb =>
    match frame_own fr i nb with
    | (Ok _, fr') => frame_others fr' i nb.2 0 nb.1
    | stopped => stopped
    end).

Fixpoint frame_loop (self : Neighbours) (fr : frame) (particles : list Z)
    : result unit * frame :=
  match particles with
  | [] => (Ok tt, fr)
  | i :: rest =>
      match frame_particle self fr i with
      | (Ok _, fr') => frame_loop self fr' rest
      | stopped => stopped
      end
  end.

Definition set_frame (self : Neighbours) (fr : frame) : Neighbours :=
  mk_Neighbours (info self) (positions self) (_box_length self) (_skin_radius self)
    (_subcells_inrow self) (_subcell_length self) (_start_index self)
    (_neighbour_list self) fr.1 fr.2 (_last_update self) (_update_count self).

Definition get_frame (self : Neighbours) : frame :=
  (_neighbours_frame_IDs self, _neighbours_frame_dist self).

Definition _create_neighbours_frame (self : Neighbours) : result unit * Neighbours :=
  let particle_number := num_particles (info self) in
  let '(r, fr) := frame_loop self (∅, ∅) (range particle_number) in
  (r, set_frame self fr).

(** *** __init__ *)

Definition Neighbours_init (fuel : nat) (system_info : SystemInfo)
    (system_state_positions : list pos) : result Neighbours :=
  let box := char_length system_info in
  let skin := (worse_sigma system_info * 3)%Q in
  let? grid := _create_subcells fuel skin box 1 in
  let m := grid.1 in
  let sl := grid.2 in
  let? lists := _create_neighbours m sl system_state_positions in
  let self :=
    mk_Neighbours system_info system_state_positions box skin m sl
      lists.1 lists.2 ∅ ∅ 0 0 in
  match _create_neighbours_frame self with
  | (Ok _, self') => Ok self'
  | (Raise e, _) => Raise e
  | (Diverge, _) => Diverge
  end.

(** *** update_neighbours *)

(** One row of [np.sqrt(positions_old**2 - positions_current**2)]. *)
Definition movement_row (old cur : pos) : list npfloat :=
  [np_sqrt (px old ^ 2 - px cur ^ 2)%Q;
   np_sqrt (py old ^ 2 - py cur ^ 2)%Q;
   np_sqrt (pz old ^ 2 - pz cur ^ 2)%Q].

(** The whole array, flattened.  The two arrays are taken to have one shape;
    a different number of rows is reported as the ValueError NumPy raises
    for shapes that do not broadcast. *)
Fixpoint movement (positions_old positions_current : list pos) : result (list npfloat) :=
  match positions_old, positions_current with
  | [], [] => Ok []
  | old :: olds, cur :: curs =>
      let? rest := movement olds curs in
      Ok (movement_row old cur ++ rest)
  | _, _ => Raise ValueError
  end.

(** [np.maximum]: NaN wins. *)
Definition np_maximum (a b : npfloat) : npfloat :=
  match a, b with
  | Sqrt x, Sqrt y => if Qle_bool x y then Sqrt y else Sqrt x
  | _, _ => NaN
  end.

(** [np.max] of a flattened array; an empty array has no maximum. *)
Definition np_max (a : list npfloat) : result npfloat :=
  match a with
  | [] => Raise ValueError
  | x :: rest => Ok (fold_left np_maximum rest x)
  end.

Definition set_update_count (self : Neighbours) (n : Z) : Neighbours :=
  mk_Neighbours (info self) (positions self) (_box_length self) (_skin_radius self)
    (_subcells_inrow self) (_subcell_length self) (_start_index self)
    (_neighbour_list self) (_neighbours_frame_IDs self) (_neighbours_frame_dist self)
    (_last_update self) n.

(** The test of the if statement. *)
Definition rebuild_test (self : Neighbours) (positions_old positions_current : list pos)
    : result bool :=
  let? mv := movement positions_old positions_current in
  let? top := np_max mv in
  Ok (Q_lt_np (_skin_radius self - cutoff (info self))%Q top).

(** The property [update_neighbours].  [System_states] is the list of the
    position arrays of [self.System.states()] at the time of the call.
    Returns the outcome of the call together with the object as the call
    leaves it.  Inside the if statement the attribute [_create_neigbours]
    is read; the class defines no attribute of that name. *)
Definition update_neighbours (System_states : list (list pos)) (self : Neighbours)
    : result (list Z) * Neighbours :=
  match _create_neighbours_frame self with
  | (Ok _, self1) =>
      attempt (py_index System_states (_last_update self1)) self1 (fun positions_old =>
      attempt (py_index System_states (-1)) self1 (fun positions_current =>
      attempt (rebuild_test self1 positions_old positions_current) self1 (fun far =>
        if (far : bool) then (Raise AttributeError, self1)
        else
          (* self._update_count = + 1 : the value of the unary plus of 1 *)
          let self2 := set_update_count self1 1 in
          (Ok (_neighbour_list self2), self2))))
  | (Raise e, self1) => (Raise e, self1)
  | (Diverge, self1) => (Diverge, self1)
  end.

(** ** The periodic helpers of neighbours.py *)

(** [np.around] of a number: the nearest integer, a half going to the even
    neighbour. *)
Definition np_around (x : Q) : Z :=
  let f := Qfloor x in
  let r := (x - inject_Z f)%Q in
  if Qltb r (1 # 2) then f
  else if Qltb (1 # 2) r then f + 1
  else if Z.even f then f else f + 1.

(** An operation applied to each of the three columns of a row. *)
Definition map_pos (f : Q -> Q) (p : pos) : pos :=
  mk_pos (f (px p)) (f (py p)) (f (pz p)).

(** One element of [pos_arr - np.floor(pos_arr / length) * length].  The
    quotient is the rational one: the model is for a length other than 0,
    where NumPy's division gives inf or nan. *)
Definition stay_in_box (length x : Q) : Q :=
  (x - inject_Z (Qfloor (x / length)) * length)%Q.

Definition periodic_particles_stay_in_box (pos_arr : list pos) (length : Q) : list pos :=
  map (map_pos (stay_in_box length)) pos_arr.

(** One element of [dist_arr - np.around(dist_arr / length) * length], for
    a length other than 0 as well. *)
Definition wrap_corner (length d : Q) : Q :=
  (d - inject_Z (np_around (d / length)) * length)%Q.

(** What [periodic_wrap_corner] returns; its printing under [verbose] is
    left out. *)
Definition periodic_wrap_corner (dist_arr : list pos) (length : Q) : list pos :=
  map (map_pos (wrap_corner length)) dist_arr.

(** ** get_neighbours *)

(** The exceptions of the functions below: those of [exn], the
    UnboundLocalError of a local variable read before any assignment, and
    TypeError. *)
Inductive exception : Type :=
| Builtin (e : exn)
| UnboundLocalError
| TypeError.

(** The outcome of a call that returns or raises. *)
Inductive outcome (A : Type) : Type :=
| Returns (a : A)
| Throws (e : exception).

Arguments Returns {A} a.
Arguments Throws {A} e.

(** [get_neighbours]: the two locals are assigned only when the key is in
    the ids dictionary; the named tuple is built from them in any case. *)
Definition get_neighbours (self : Neighbours) (particle_ID : Z)
    : outcome (list Z * list npfloat) :=
  match _neighbours_frame_IDs self !! particle_ID with
  | Some neighbours =>
      match _neighbours_frame_dist self !! particle_ID with
      | Some neighbours_distance => Returns (neighbours, neighbours_distance)
      | None => Throws (Builtin KeyError)
      end
  | None => Throws UnboundLocalError
  end.

(** ** sysmodule.System *)

(** A value handed to [update_state]: a SystemState (given by its
    positions), a list of values, or an object of any other type. *)
#[warnings="-register-all"] Inductive pyvalue : Type :=
| SystemState (positions : list pos)
| PyList (items : list pyvalue)
| PyOther.

(** [isinstance(v, SystemState)] *)
Definition is_SystemState (v : pyvalue) : bool :=
  match v with
  | SystemState _ => true
  | _ => false
  end.

(** [System.update_state]: the outcome of the call and the list
    [_systemStates] after it.  [new_state[0]] of an empty list raises
    IndexError. *)
Definition update_state (_systemStates : list pyvalue) (new_state : pyvalue)
    : outcome unit * list pyvalue :=
  if is_SystemState new_state then (Returns tt, _systemStates ++ [new_state])
  else
    match new_state with
    | PyList items =>
        match items with
        | [] => (Throws (Builtin IndexError), _systemStates)
        | first :: _ =>
            if is_SystemState first then (Returns tt, _systemStates ++ items)
            else (Throws TypeError, _systemStates)
        end
    | _ => (Throws TypeError, _systemStates)
    end.

(** [System.state]: [self._systemStates[-1]] *)
Definition state (_systemStates : list pyvalue) : result pyvalue :=
  py_index _systemStates (-1).

(** [System.states] *)
Definition states (_systemStates : list pyvalue) : list pyvalue := _systemStates.

(** * Definitions used in the statements *)

(** ** The frame read as adjacency lists *)

(** The adjacency of particle [k] as the two dictionaries hold it: the
    stored neighbour ids paired, position by position, with the stored
    distances. *)
Definition entries (fr : frame) (k : Z) : list (Z * npfloat) :=
  match fr.1 !! k, fr.2 !! k with
  | Some nb_ID, Some nb_dist => zip nb_ID nb_dist
  | _, _ => []
  end.

(** The two dictionaries have the same keys and parallel lists. *)
Definition frame_wf (fr : frame) : Prop :=
  forall k, match fr.1 !! k, fr.2 !! k with
            | Some nb_ID, Some nb_dist => length nb_ID = length nb_dist
            | None, None => True
            | _, _ => False
            end.

(** What the pass of particle [i] with result [nb] appends to the
    adjacency of [k]: the copy of each pair of [nb] that names [k]. *)
Definition mirrored (i k : Z) (nb : list (Z * npfloat)) : list (Z * npfloat) :=
  map (fun jd => (i, jd.2)) (filter (fun jd => jd.1 = k) nb).

(** The pairs [(neighbour id, distance)] that [_neighbours_for_one] returns
    for particle [i]. *)
Definition pairs (self : Neighbours) (i : Z) : list (Z * npfloat) :=
  match _neighbours_for_one self i with
  | Ok nb => zip nb.1 nb.2
  | _ => []
  end.

(** What the pass of particle [i] appends to the adjacency of [k]. *)
Definition contribution (self : Neighbours) (k i : Z) : list (Z * npfloat) :=
  (if decide (k = i) then pairs self i else []) ++ mirrored i k (pairs self i).

(** The frame held by the object is the one the frame loop builds from the
    object's lists and positions. *)
Definition frame_current (self : Neighbours) : Prop :=
  frame_loop self (∅, ∅) (range (num_particles (info self))) = (Ok tt, get_frame self).

(** The object built by a successful constructor call. *)
Record constructed (fuel : nat) (si : SystemInfo) (ps : list pos) (self : Neighbours)
    : Prop := {
  built_info : info self = si;
  built_positions : positions self = ps;
  built_box : _box_length self = char_length si;
  built_skin : _skin_radius self = (worse_sigma si * 3)%Q;
  built_grid :
    _create_subcells_loop fuel (worse_sigma si * 3)%Q (char_length si) 1
      = Ok (_subcells_inrow self);
  built_length :
    _subcell_length self = (char_length si / inject_Z (_subcells_inrow self))%Q;
  built_lists :
    _create_neighbours (_subcells_inrow self) (_subcell_length self) ps
      = Ok (_start_index self, _neighbour_list self);
  built_frame :
    frame_loop self (∅, ∅) (range (num_particles si)) = (Ok tt, get_frame self);
  built_last_update : _last_update self = 0;
  built_update_count : _update_count self = 0
}.

(** ** The chains of the linked lists *)

(** Every entry of the linked list points to an earlier particle or is -1. *)
Definition decreasing (neighbour_list : list Z) : Prop :=
  forall (k : nat) (v : Z), neighbour_list !! k = Some v -> -1 <= v < Z.of_nat k.

(** The particles among the first [n] of [ps] whose subcell is [c], latest
    first: what the chain of subcell [c] must hold after [n] turns of the
    loop of [_create_neighbours]. *)
Fixpoint chain_upto (m : Z) (sl : Q) (ps : list pos) (n : nat) (c : Z) : list Z :=
  match n with
  | O => []
  | S n' =>
      match ps !! n' with
      | Some p =>
          match _find_subcell m sl p with
          | Ok c' => if decide (c' = c) then Z.of_nat n' :: chain_upto m sl ps n' c
                     else chain_upto m sl ps n' c
          | _ => chain_upto m sl ps n' c
          end
      | None => chain_upto m sl ps n' c
      end
  end.

(** The state of the two lists after [n] turns of that loop. *)
Record linked (m : Z) (sl : Q) (ps : list pos) (n : nat) (st : list Z * list Z)
    : Prop := {
  linked_heads : length st.1 = Z.to_nat (m ^ 3);
  linked_next : length st.2 = length ps;
  linked_decreasing : decreasing st.2;
  linked_chain : forall c : nat, (c < length st.1)%nat ->
    exists h, st.1 !! c = Some h /\ -1 <= h < Z.of_nat n /\
      walk_chain (length ps) st.2 h = Ok (chain_upto m sl ps n (Z.of_nat c))
}.

(** What the filtering loop keeps of one candidate [j]. *)
Definition kept (self : Neighbours) (i : Z) (p : pos) (j : Z) : list (Z * npfloat) :=
  if j >? i then
    match positions self !! Z.to_nat j with
    | Some q =>
        let d := distance_to (_box_length self) (_subcell_length self) p q in
        if Q_lt_np 0 d && np_le_Q d (cutoff (info self)) then [(j, d)] else []
    | None => []
    end
  else [].

(** The candidate list of a position: the chains of its 27 subcells. *)
Definition candidates (self : Neighbours) (p : pos) : list Z :=
  concat (map (chain_upto (_subcells_inrow self) (_subcell_length self) (positions self)
                 (length (positions self)))
              (_get_neighbours_subcells (_subcells_inrow self) (_subcell_length self) p)).

(** The lists of the object are those a build leaves. *)
Definition well_linked (self : Neighbours) : Prop :=
  1 <= _subcells_inrow self /\
  linked (_subcells_inrow self) (_subcell_length self) (positions self)
    (length (positions self)) (_start_index self, _neighbour_list self).

(** ** Positions and the grid *)

(** All coordinates are non-negative. *)
Definition nonnegative (p : pos) : Prop := (0 <= px p)%Q /\ (0 <= py p)%Q /\ (0 <= pz p)%Q.

(** All coordinates lie in [0, box). *)
Definition in_box (box : Q) (p : pos) : Prop :=
  (0 <= px p < box)%Q /\ (0 <= py p < box)%Q /\ (0 <= pz p < box)%Q.

(** The three subcell coordinates the stencil takes on one axis, before
    wrapping, for the offsets 0, 1, 2. *)
Definition axis_offset (sl a : Q) (o : Z) : Z :=
  if o =? 0 then Qfloor ((a - sl) / sl)
  else if o =? 1 then Qfloor (a / sl)
  else Qfloor ((a + sl) / sl).

(** The subcell coordinates of a position. *)
Definition in_grid (m : Z) (sl : Q) (p : pos) : Prop :=
  0 <= Qfloor (px p / sl) <= m - 1 /\
  0 <= Qfloor (py p / sl) <= m - 1 /\
  0 <= Qfloor (pz p / sl) <= m - 1.

(** Two subcell coordinates are next to each other on the periodic row. *)
Definition adjacent (m c c' : Z) : Prop :=
  -1 <= c' - c <= 1 \/ (c = 0 /\ c' = m - 1) \/ (c = m - 1 /\ c' = 0).

(** The real number an [npfloat] stands for. *)
Definition np_value (x : npfloat) : R :=
  match x with
  | Sqrt q => sqrt (Q2R q)
  | NaN => 0%R
  end.

(** ** Notions taken from the words of the spec *)

(** The rebuild decision in the words of the spec: some particle's
    displacement since the last build, the Euclidean norm of current
    position minus last-build position, exceeds the skin margin. *)
Definition displacement (last current : pos) : npfloat :=
  norm (px current - px last) (py current - py last) (pz current - pz last).

(** [shouldRebuild], for position lists of one length. *)
Definition spec_should_rebuild (currentPositions lastBuildPositions : list pos)
    (skinRadius cutoffRadius : Q) : bool :=
  existsb (fun cl => Q_lt_np (skinRadius - cutoffRadius)%Q (displacement cl.2 cl.1))
          (zip currentPositions lastBuildPositions).

(** The minimum-image convention in the words of the spec: on each axis
    the shorter of the direct and the wrapped-around distance. *)
Definition minimum_image_axis (box a b : Q) : Q :=
  Qmin (Qabs (a - b)) (box - Qabs (a - b)).

(** The minimum-image distance of two positions. *)
Definition minimum_image_distance (box : Q) (p q : pos) : npfloat :=
  norm (minimum_image_axis box (px p) (px q))
       (minimum_image_axis box (py p) (py q))
       (minimum_image_axis box (pz p) (pz q)).

(** ** Rows of position arrays *)

(** Two rows hold equal numbers. *)
Definition pos_eq (p q : pos) : Prop :=
  (px p == px q)%Q /\ (py p == py q)%Q /\ (pz p == pz q)%Q.

(** Every coordinate of [q] is the one of [p] shifted by a whole number of
    box lengths. *)
Definition same_image (length : Q) (p q : pos) : Prop :=
  (exists k : Z, (px q == px p + inject_Z k * length)%Q) /\
  (exists k : Z, (py q == py p + inject_Z k * length)%Q) /\
  (exists k : Z, (pz q == pz p + inject_Z k * length)%Q).

(** The difference of two rows. *)
Definition pos_sub (p q : pos) : pos :=
  mk_pos (px p - px q) (py p - py q) (pz p - pz q).

(** A square root of zero. *)
Definition zero_root (x : npfloat) : Prop := exists q, x = Sqrt q /\ (q == 0)%Q.

(** ** Example configurations *)

(** Box length 10, cutoff radius 3, skin radius [3 * 1], two particles. *)
Definition wrap_info : SystemInfo := mk_SystemInfo 10 3 1 2.
Definition wrap_positions : list pos := [mk_pos 0 0 0; mk_pos 9 0 0].

(** The object of the wrap example as the constructor has it just before
    it builds the frame: four subcells per row of length 10/4, particle 0
    heading subcell 0 and particle 1 heading subcell 3. *)
Definition wrap_self : Neighbours :=
  mk_Neighbours wrap_info wrap_positions 10 (1 * 3) 4 (10 / inject_Z 4)
    (<[3%nat := 1]> (<[0%nat := 0]> (replicate 64 (-1)))) [-1; -1] ∅ ∅ 0 0.

(** Box length 6, cutoff radius 3, skin radius [3 * 1]: what
    [SystemInfo(6, 1, ...)] holds. *)
Definition small_info (n : Z) : SystemInfo := mk_SystemInfo 6 3 1 n.

(** Box length 12, cutoff radius 3, skin radius [3 * (4/3) = 4]: a skin
    margin of 1. *)
Definition margin_info : SystemInfo := mk_SystemInfo 12 3 (4 # 3) 2.

(** Box length 12, cutoff radius 3, skin radius 3: four subcells per row
    of length 3.  The two particles are 1 apart through the boundary. *)
Definition grid4_info : SystemInfo := mk_SystemInfo 12 3 1 2.
Definition grid4_positions : list pos := [mk_pos 0 0 0; mk_pos 11 0 0].

(** * Properties *)

(** ** Indexing *)

Lemma py_index_Ok {A : Type} (l : list A) (i : Z) (a : A) :
  0 <= i -> py_index l i = Ok a <-> l !! Z.to_nat i = Some a.
Proof.
  intros Hi. unfold py_index.
  destruct (i <? 0) eqn:Hneg; [lia|].
  destruct ((0 <=? i) && (i <? Z.of_nat (length l))) eqn:Hin.
  - destruct (l !! Z.to_nat i) eqn:Hl; split; intros H; congruence.
  - split; [discriminate|]. intros H. apply lookup_lt_Some in H.
    apply andb_false_iff in Hin. lia.
Qed.

Lemma py_index_in_range {A : Type} (l : list A) (i : Z) :
  0 <= i < Z.of_nat (length l) -> exists a, py_index l i = Ok a.
Proof.
  intros Hi. destruct (lookup_lt_is_Some_2 l (Z.to_nat i)) as [a Ha]; [lia|].
  exists a. apply py_index_Ok; [lia|done].
Qed.

Lemma py_index_out_of_range {A : Type} (l : list A) (i : Z) :
  Z.of_nat (length l) <= i -> py_index l i = Raise IndexError.
Proof.
  intros Hi. unfold py_index.
  destruct (i <? 0) eqn:Hneg; [lia|].
  destruct ((0 <=? i) && (i <? Z.of_nat (length l))) eqn:Hin; [|done].
  apply andb_true_iff in Hin. lia.
Qed.

Lemma py_setitem_Ok {A : Type} (l l' : list A) (i : Z) (v : A) :
  0 <= i -> py_setitem l i v = Ok l' ->
  l' = <[Z.to_nat i := v]> l /\ i < Z.of_nat (length l).
Proof.
  intros Hi. unfold py_setitem.
  destruct (i <? 0) eqn:Hneg; [lia|].
  destruct ((0 <=? i) && (i <? Z.of_nat (length l))) eqn:Hin; [|discriminate].
  intros [= <-]. apply andb_true_iff in Hin. split; [done|lia].
Qed.

Lemma py_setitem_length {A : Type} (l l' : list A) (i : Z) (v : A) :
  py_setitem l i v = Ok l' -> length l' = length l.
Proof.
  unfold py_setitem.
  destruct ((0 <=? _) && _); [|discriminate].
  intros [= <-]. apply length_insert.
Qed.

Lemma range_length (n : Z) : length (range n) = Z.to_nat n.
Proof. unfold range. by rewrite length_map, length_seq. Qed.

Lemma elem_of_range (n i : Z) : i ∈ range n <-> 0 <= i < n.
Proof.
  unfold range. rewrite list_elem_of_fmap. split.
  - intros (k & -> & Hk). apply list_elem_of_In, in_seq in Hk. lia.
  - intros Hi. exists (Z.to_nat i). split; [lia|].
    apply list_elem_of_In, in_seq. lia.
Qed.

Lemma range_lookup (n : Z) (k : nat) :
  (k < Z.to_nat n)%nat -> range n !! k = Some (Z.of_nat k).
Proof.
  intros Hk. unfold range. rewrite list_lookup_fmap.
  by rewrite lookup_seq_lt.
Qed.

(** ** The subcell grid *)

Lemma Qltb_lt (a b : Q) : Qltb a b = true <-> (a < b)%Q.
Proof.
  unfold Qltb. rewrite negb_true_iff. split.
  - intros H. apply Qnot_le_lt. intros Hle. apply Qle_bool_iff in Hle. congruence.
  - intros H. destruct (Qle_bool b a) eqn:E; [|done].
    apply Qle_bool_iff in E. exfalso. apply (Qlt_not_le _ _ H E).
Qed.

Lemma Qltb_ge (a b : Q) : Qltb a b = false <-> (b <= a)%Q.
Proof.
  unfold Qltb. rewrite negb_false_iff. apply Qle_bool_iff.
Qed.

Lemma _create_subcells_loop_Ok (fuel : nat) (skin box : Q) (m0 m : Z) :
  _create_subcells_loop fuel skin box m0 = Ok m ->
  m0 <= m /\ (box / inject_Z m <= skin)%Q /\
  forall k, m0 <= k < m -> (skin < box / inject_Z k)%Q.
Proof.
  revert m0. induction fuel as [|fuel IH]; intros m0; simpl; [discriminate|].
  destruct (Qltb skin (box / inject_Z m0)) eqn:E.
  - intros H. destruct (IH _ H) as (Hle & Hm & Hk).
    split; [lia|]. split; [done|]. intros k Hk'.
    destruct (decide (k = m0)) as [->|Hne]; [by apply Qltb_lt|apply Hk; lia].
  - intros [= <-]. split; [lia|]. split; [by apply Qltb_ge|]. intros k Hk. lia.
Qed.

Lemma _create_subcells_loop_more_fuel (fuel : nat) (skin box : Q) (m0 m : Z) :
  _create_subcells_loop fuel skin box m0 = Ok m ->
  _create_subcells_loop (S fuel) skin box m0 = Ok m.
Proof.
  revert m0. induction fuel as [|fuel IH]; intros m0; [discriminate|].
  intros H. simpl in H. change (_create_subcells_loop (S (S fuel)) skin box m0)
    with (if Qltb skin (box / inject_Z m0)
          then _create_subcells_loop (S fuel) skin box (m0 + 1) else Ok m0).
  destruct (Qltb skin (box / inject_Z m0)); [by apply IH|done].
Qed.

Lemma Qceiling_pos (x : Q) : (0 < x)%Q -> 1 <= Qceiling x.
Proof.
  intros Hx. pose proof (Qle_ceiling x) as Hc.
  assert (H0 : (0 < inject_Z (Qceiling x))%Q) by lra.
  rewrite <- (Zlt_Qlt 0) in H0. lia.
Qed.

Lemma subcells_exit (skin box : Q) (m : Z) :
  (0 < skin)%Q -> (0 < box)%Q -> Qceiling (box / skin) <= m ->
  (box / inject_Z m <= skin)%Q.
Proof.
  intros Hs Hb Hm.
  assert (Hpos : (0 < box / skin)%Q) by (apply Qlt_shift_div_l; lra).
  pose proof (Qceiling_pos _ Hpos) as H1.
  pose proof (Qle_ceiling (box / skin)) as Hc.
  assert (Hm' : (inject_Z (Qceiling (box / skin)) <= inject_Z m)%Q) by (by rewrite <- Zle_Qle).
  assert (Hmp : (0 < inject_Z m)%Q) by (rewrite <- (Zlt_Qlt 0); lia).
  apply Qle_shift_div_r; [done|].
  assert (Hbs : (box <= inject_Z m * skin)%Q).
  { assert (E : (box == box / skin * skin)%Q) by (field; lra).
    rewrite E at 1. apply Qmult_le_compat_r; lra. }
  lra.
Qed.

Lemma _create_subcells_loop_terminates (skin box : Q) (d : nat) (m0 : Z) :
  (0 < skin)%Q -> (0 < box)%Q -> 1 <= m0 ->
  Qceiling (box / skin) - m0 <= Z.of_nat d ->
  exists m, _create_subcells_loop (S d) skin box m0 = Ok m.
Proof.
  intros Hs Hb. revert m0. induction d as [|d IH]; intros m0 Hm0 Hd.
  - simpl. rewrite (proj2 (Qltb_ge _ _)); [by eexists|].
    apply subcells_exit; [done..|lia].
  - change (_create_subcells_loop (S (S d)) skin box m0)
      with (if Qltb skin (box / inject_Z m0)
            then _create_subcells_loop (S d) skin box (m0 + 1) else Ok m0).
    destruct (Qltb skin (box / inject_Z m0)); [|by eexists].
    apply IH; lia.
Qed.

Lemma _create_subcells_loop_fuel_le (fuel fuel' : nat) (skin box : Q) (m0 m : Z) :
  (fuel <= fuel')%nat ->
  _create_subcells_loop fuel skin box m0 = Ok m ->
  _create_subcells_loop fuel' skin box m0 = Ok m.
Proof.
  induction 1 as [|fuel' _ IH]; [done|].
  intros H. by apply _create_subcells_loop_more_fuel, IH.
Qed.

(** The loop started at 1 ends whenever the skin radius and the box length
    are positive, and any larger fuel gives the same count. *)
Lemma _create_subcells_loop_total (skin box : Q) :
  (0 < skin)%Q -> (0 < box)%Q ->
  exists m, forall fuel, (Z.to_nat (Qceiling (box / skin)) <= fuel)%nat ->
    _create_subcells_loop fuel skin box 1 = Ok m.
Proof.
  intros Hs Hb.
  assert (Hpos : (0 < box / skin)%Q) by (apply Qlt_shift_div_l; lra).
  pose proof (Qceiling_pos _ Hpos) as H1.
  destruct (_create_subcells_loop_terminates skin box
              (Z.to_nat (Qceiling (box / skin)) - 1) 1 Hs Hb) as [m Hm]; [lia..|].
  exists m. intros fuel Hfuel.
  eapply _create_subcells_loop_fuel_le; [|exact Hm]. lia.
Qed.

(** ** The stencil *)

Lemma wrap_coordinate_range (m v : Z) : 1 <= m -> 0 <= wrap_coordinate m v <= m - 1.
Proof.
  intros Hm. unfold wrap_coordinate.
  destruct (v <? 0) eqn:E1.
  - destruct (m - 1 >? m - 1) eqn:E2; lia.
  - destruct (v >? m - 1) eqn:E2; lia.
Qed.

Lemma neighbour_subcell_range (m : Z) (sl : Q) (p : pos) (cell : Z) :
  1 <= m -> 0 <= neighbour_subcell m sl p cell < m ^ 3.
Proof.
  intros Hm. unfold neighbour_subcell.
  destruct (subcells_id_3d sl p cell) as [[x y] z].
  pose proof (wrap_coordinate_range m x Hm).
  pose proof (wrap_coordinate_range m y Hm).
  pose proof (wrap_coordinate_range m z Hm).
  replace (m ^ 3) with (m * m * m) by ring.
  replace (m ^ 2) with (m * m) by ring.
  set (a := wrap_coordinate m x) in *. set (b := wrap_coordinate m y) in *.
  set (c := wrap_coordinate m z) in *.
  assert (0 <= b * m <= (m - 1) * m) by nia.
  assert (0 <= c * (m * m) <= (m - 1) * (m * m)) by nia.
  lia.
Qed.

Lemma _get_neighbours_subcells_range (m : Z) (sl : Q) (p : pos) (id : Z) :
  1 <= m -> id ∈ _get_neighbours_subcells m sl p -> 0 <= id < m ^ 3.
Proof.
  intros Hm. unfold _get_neighbours_subcells. rewrite list_elem_of_fmap.
  intros (cell & -> & _). by apply neighbour_subcell_range.
Qed.

Lemma _get_neighbours_subcells_length (m : Z) (sl : Q) (p : pos) :
  length (_get_neighbours_subcells m sl p) = 27%nat.
Proof. unfold _get_neighbours_subcells. by rewrite length_map, range_length. Qed.

(** ** The linked lists keep their lengths *)

Lemma link_particle_length (st : list Z * list Z) (i c : Z) :
  length (link_particle st i c).1 = length st.1 /\
  length (link_particle st i c).2 = length st.2.
Proof.
  destruct st as [start nl]. unfold link_particle.
  destruct (py_index start c) as [h| |]; [|done..].
  destruct (py_setitem nl i h) as [nl'| |] eqn:E1; [|done..].
  apply py_setitem_length in E1.
  destruct (py_setitem start c i) as [start'| |] eqn:E2; [|done..].
  apply py_setitem_length in E2. done.
Qed.

Lemma _create_neighbours_loop_length (m : Z) (sl : Q) (ps : list pos) (i : Z)
    (st st' : list Z * list Z) :
  _create_neighbours_loop m sl ps i st = Ok st' ->
  length st'.1 = length st.1 /\ length st'.2 = length st.2.
Proof.
  revert i st. induction ps as [|p ps IH]; intros i st; simpl.
  - by intros [= <-].
  - destruct (_find_subcell m sl p) as [c| |]; simpl; [|done..].
    intros H. apply IH in H. destruct (link_particle_length st i c). lia.
Qed.

Lemma _create_neighbours_length (m : Z) (sl : Q) (ps : list pos) (lists : list Z * list Z) :
  _create_neighbours m sl ps = Ok lists ->
  length lists.1 = Z.to_nat (m ^ 3) /\ length lists.2 = length ps.
Proof.
  unfold _create_neighbours. intros H.
  apply _create_neighbours_loop_length in H. simpl in H.
  by rewrite !length_replicate in H.
Qed.

(** ** What __init__ leaves behind *)

Lemma keep_neighbours_set_frame (self : Neighbours) (fr : frame) (i : Z) (p : pos)
    (l : list Z) :
  keep_neighbours (set_frame self fr) i p l = keep_neighbours self i p l.
Proof.
  induction l as [|index l IH]; simpl; [done|]. by rewrite IH.
Qed.

Lemma _neighbours_for_one_set_frame (self : Neighbours) (fr : frame) (i : Z) :
  _neighbours_for_one (set_frame self fr) i = _neighbours_for_one self i.
Proof.
  unfold _neighbours_for_one.
  change (positions (set_frame self fr)) with (positions self).
  change (_subcells_inrow (set_frame self fr)) with (_subcells_inrow self).
  change (_subcell_length (set_frame self fr)) with (_subcell_length self).
  change (_start_index (set_frame self fr)) with (_start_index self).
  change (_neighbour_list (set_frame self fr)) with (_neighbour_list self).
  destruct (py_index (positions self) i) as [p| |]; [|done..].
  unfold rbind at 1 3.
  destruct (collect_neighbours (_start_index self) (_neighbour_list self) _)
    as [l| |]; [|done..].
  apply keep_neighbours_set_frame.
Qed.

Lemma frame_loop_set_frame (self : Neighbours) (fr0 fr : frame) (l : list Z) :
  frame_loop (set_frame self fr0) fr l = frame_loop self fr l.
Proof.
  revert fr. induction l as [|i l IH]; intros fr; simpl; [done|].
  unfold frame_particle. rewrite _neighbours_for_one_set_frame.
  destruct (attempt _ _ _) as [[[]| |] fr']; [apply IH|done..].
Qed.

Lemma Neighbours_init_Ok (fuel : nat) (si : SystemInfo) (ps : list pos) (self : Neighbours) :
  Neighbours_init fuel si ps = Ok self -> constructed fuel si ps self.
Proof.
  unfold Neighbours_init, _create_subcells.
  destruct (_create_subcells_loop fuel _ _ 1) as [m| |] eqn:Hm; simpl; [|done..].
  destruct (_create_neighbours m _ ps) as [[start nl]| |] eqn:Hl; simpl; [|done..].
  unfold _create_neighbours_frame. simpl.
  destruct (frame_loop _ _ _) as [r fr] eqn:Hf.
  destruct r as [[]| |]; [|done..]. intros [= <-].
  split; simpl; try done.
  rewrite frame_loop_set_frame. rewrite Hf. by destruct fr.
Qed.

Lemma constructed_subcells_inrow (fuel : nat) (si : SystemInfo) (ps : list pos)
    (self : Neighbours) :
  constructed fuel si ps self -> 1 <= _subcells_inrow self.
Proof. intros H. by destruct (_create_subcells_loop_Ok _ _ _ _ _ (built_grid _ _ _ _ H)). Qed.

Lemma constructed_lengths (fuel : nat) (si : SystemInfo) (ps : list pos)
    (self : Neighbours) :
  constructed fuel si ps self ->
  length (_start_index self) = Z.to_nat (_subcells_inrow self ^ 3) /\
  length (_neighbour_list self) = length ps.
Proof. intros H. apply (_create_neighbours_length _ _ _ _ (built_lists _ _ _ _ H)). Qed.

(** ** Claims on the subcell grid and the stencil *)

(** C10.  For an object built by the constructor and a position whose three
    coordinates lie in [0, box length), the stencil has 27 subcell ids, each
    of them lies in [0, subcells_inrow^3), and indexing the head array
    [_start_index] with it returns an entry (no IndexError). *)
Theorem C10_stencil_ids_in_bounds (fuel : nat) (si : SystemInfo) (ps : list pos)
    (self : Neighbours) (p : pos) :
  Neighbours_init fuel si ps = Ok self ->
  (0 <= px p < _box_length self)%Q ->
  (0 <= py p < _box_length self)%Q ->
  (0 <= pz p < _box_length self)%Q ->
  length (_get_neighbours_subcells (_subcells_inrow self) (_subcell_length self) p) = 27%nat /\
  forall id, id ∈ _get_neighbours_subcells (_subcells_inrow self) (_subcell_length self) p ->
    0 <= id < _subcells_inrow self ^ 3 /\
    exists head, py_index (_start_index self) id = Ok head.
Proof.
  intros Hinit _ _ _. apply Neighbours_init_Ok in Hinit.
  pose proof (constructed_subcells_inrow _ _ _ _ Hinit) as Hm.
  destruct (constructed_lengths _ _ _ _ Hinit) as [Hlen _].
  split; [apply _get_neighbours_subcells_length|].
  intros id Hid. apply _get_neighbours_subcells_range in Hid; [|done].
  split; [done|]. apply py_index_in_range. rewrite Hlen. lia.
Qed.

Lemma C10_stencil_ids_in_bounds_witness :
  exists self, Neighbours_init 4 wrap_info wrap_positions = Ok self /\
    forall id,
      id ∈ _get_neighbours_subcells (_subcells_inrow self) (_subcell_length self)
             (mk_pos 0 0 0) ->
      0 <= id < _subcells_inrow self ^ 3 /\
      exists head, py_index (_start_index self) id = Ok head.
Proof.
  destruct (Neighbours_init 4 wrap_info wrap_positions) as [self| |] eqn:E;
    [|vm_compute in E; discriminate..].
  exists self. split; [reflexivity|].
  refine (proj2 (C10_stencil_ids_in_bounds 4 wrap_info wrap_positions self
                   (mk_pos 0 0 0) E _ _ _)).
  all: rewrite (built_box _ _ _ _ (Neighbours_init_Ok _ _ _ _ E)); simpl; lra.
Defined.




(** ** The periodic wrap example *)

Lemma wrap_example_grid (w : Q) (fuel : nat) :
  (1 <= w * 3 < 5)%Q -> (10 <= fuel)%nat ->
  exists m, _create_subcells_loop fuel (w * 3)%Q 10 1 = Ok m /\ 3 <= m <= 10.
Proof.
  intros Hw Hfuel.
  destruct (_create_subcells_loop_total (w * 3)%Q 10) as [m Hm]; [lra|reflexivity|].
  assert (Hc : Qceiling (10 / (w * 3)) <= 10).
  { change 10 with (Qceiling (inject_Z 10)) at 2. apply Qceiling_resp_le.
    apply Qle_shift_div_r; [lra|]. change (inject_Z 10) with 10%Q. lra. }
  assert (Hf : (Z.to_nat (Qceiling (10 / (w * 3))) <= fuel)%nat) by lia.
  exists m. split; [by apply Hm|].
  destruct (_create_subcells_loop_Ok _ _ _ _ _ (Hm _ Hf)) as (H1 & Hle & Hk).
  split.
  - destruct (decide (3 <= m)) as [|Hn]; [done|exfalso].
    assert (Hcase : m = 1 \/ m = 2) by lia.
    destruct Hcase as [-> | ->].
    + assert (E : (10 / inject_Z 1 == 10)%Q) by reflexivity. rewrite E in Hle. lra.
    + assert (E : (10 / inject_Z 2 == 5)%Q) by reflexivity. rewrite E in Hle. lra.
  - destruct (decide (m <= 10)) as [|Hn]; [done|exfalso].
    specialize (Hk 10 ltac:(lia)).
    assert (E : (10 / inject_Z 10 == 1)%Q) by reflexivity.
    rewrite E in Hk. lra.
Qed.



(** ** The neighbours frame *)

Lemma frame_wf_empty : frame_wf (∅, ∅).
Proof. intros k. simpl. by rewrite !lookup_empty. Qed.

Lemma frame_own_spec (fr : frame) (i : Z) (nb : list Z * list npfloat) :
  frame_wf fr -> length nb.1 = length nb.2 ->
  exists fr', frame_own fr i nb = (Ok tt, fr') /\ frame_wf fr' /\
    is_Some (fr'.1 !! i) /\
    (forall k, is_Some (fr.1 !! k) -> is_Some (fr'.1 !! k)) /\
    forall k, entries fr' k = entries fr k ++ (if decide (k = i) then zip nb.1 nb.2 else []).
Proof.
  destruct fr as [ids ds]. intros Hwf Hlen. unfold frame_own.
  pose proof (Hwf i) as Hi. simpl in Hi.
  destruct (ids !! i) as [a|] eqn:Ea; destruct (ds !! i) as [b|] eqn:Eb; try done.
  - unfold dict_getitem. rewrite Eb. simpl. eexists. split; [done|].
    split; [|split; [|split]].
    + intros k. simpl. destruct (decide (k = i)) as [->|Hne].
      * rewrite !lookup_insert_eq. rewrite !length_app. lia.
      * rewrite !lookup_insert_ne by done. apply (Hwf k).
    + simpl. rewrite lookup_insert_eq. by eexists.
    + intros k Hk. simpl in *. destruct (decide (k = i)) as [->|Hne].
      * rewrite lookup_insert_eq. by eexists.
      * by rewrite lookup_insert_ne.
    + intros k. unfold entries. simpl. destruct (decide (k = i)) as [->|Hne].
      * rewrite !lookup_insert_eq, Ea, Eb. by apply zip_with_app.
      * rewrite !lookup_insert_ne by done. by rewrite app_nil_r.
  - eexists. split; [done|]. split; [|split; [|split]].
    + intros k. simpl. destruct (decide (k = i)) as [->|Hne].
      * by rewrite !lookup_insert_eq.
      * rewrite !lookup_insert_ne by done. apply (Hwf k).
    + simpl. rewrite lookup_insert_eq. by eexists.
    + intros k Hk. simpl in *. destruct (decide (k = i)) as [->|Hne].
      * rewrite lookup_insert_eq. by eexists.
      * by rewrite lookup_insert_ne.
    + intros k. unfold entries. simpl. destruct (decide (k = i)) as [->|Hne].
      * by rewrite !lookup_insert_eq, Ea.
      * rewrite !lookup_insert_ne by done. by rewrite app_nil_r.
Qed.

Lemma frame_other_spec (fr : frame) (i : Z) (nb_dist : list npfloat) (count j : Z)
    (d : npfloat) :
  frame_wf fr -> py_index nb_dist count = Ok d ->
  exists fr', frame_other fr i nb_dist count j = (Ok tt, fr') /\ frame_wf fr' /\
    (forall k, is_Some (fr.1 !! k) -> is_Some (fr'.1 !! k)) /\
    forall k, entries fr' k = entries fr k ++ (if decide (k = j) then [(i, d)] else []).
Proof.
  destruct fr as [ids ds]. intros Hwf Hd. unfold frame_other.
  pose proof (Hwf j) as Hj. simpl in Hj. rewrite Hd.
  destruct (ids !! j) as [a|] eqn:Ea; destruct (ds !! j) as [b|] eqn:Eb; try done.
  - unfold dict_getitem. rewrite Eb. simpl. eexists. split; [done|].
    split; [|split].
    + intros k. simpl. destruct (decide (k = j)) as [->|Hne].
      * rewrite !lookup_insert_eq. rewrite !length_app. simpl. lia.
      * rewrite !lookup_insert_ne by done. apply (Hwf k).
    + intros k Hk. simpl in *. destruct (decide (k = j)) as [->|Hne].
      * rewrite lookup_insert_eq. by eexists.
      * by rewrite lookup_insert_ne.
    + intros k. unfold entries. simpl. destruct (decide (k = j)) as [->|Hne].
      * rewrite !lookup_insert_eq, Ea, Eb. by rewrite zip_with_app.
      * rewrite !lookup_insert_ne by done. by rewrite app_nil_r.
  - simpl. eexists. split; [done|]. split; [|split].
    + intros k. simpl. destruct (decide (k = j)) as [->|Hne].
      * by rewrite !lookup_insert_eq.
      * rewrite !lookup_insert_ne by done. apply (Hwf k).
    + intros k Hk. simpl in *. destruct (decide (k = j)) as [->|Hne].
      * rewrite lookup_insert_eq. by eexists.
      * by rewrite lookup_insert_ne.
    + intros k. unfold entries. simpl. destruct (decide (k = j)) as [->|Hne].
      * by rewrite !lookup_insert_eq, Ea.
      * rewrite !lookup_insert_ne by done. by rewrite app_nil_r.
Qed.

Lemma py_index_drop {A : Type} (l : list A) (count : Z) (d : A) (rest : list A) :
  0 <= count -> drop (Z.to_nat count) l = d :: rest ->
  py_index l count = Ok d /\ drop (Z.to_nat (count + 1)) l = rest.
Proof.
  intros Hc Hdrop. split.
  - apply py_index_Ok; [done|].
    pose proof (lookup_drop l (Z.to_nat count) 0) as Hl.
    rewrite Hdrop, Nat.add_0_r in Hl. done.
  - replace (Z.to_nat (count + 1)) with (Z.to_nat count + 1)%nat by lia.
    rewrite <- drop_drop. by rewrite Hdrop.
Qed.

Lemma frame_others_spec (fr : frame) (i : Z) (nb_dist : list npfloat) (count : Z)
    (nb_ID : list Z) :
  frame_wf fr -> 0 <= count ->
  length nb_ID = length (drop (Z.to_nat count) nb_dist) ->
  exists fr', frame_others fr i nb_dist count nb_ID = (Ok tt, fr') /\ frame_wf fr' /\
    (forall k, is_Some (fr.1 !! k) -> is_Some (fr'.1 !! k)) /\
    forall k, entries fr' k =
      entries fr k ++ mirrored i k (zip nb_ID (drop (Z.to_nat count) nb_dist)).
Proof.
  revert fr count. induction nb_ID as [|j rest IH]; intros fr count Hwf Hc Hlen.
  - exists fr. simpl. split; [done|]. split; [done|]. split; [done|].
    intros k. unfold mirrored. simpl. by rewrite app_nil_r.
  - destruct (drop (Z.to_nat count) nb_dist) as [|d ds] eqn:Hdrop; [done|].
    destruct (py_index_drop _ _ _ _ Hc Hdrop) as [Hd Hnext].
    destruct (frame_other_spec fr i nb_dist count j d Hwf Hd)
      as (fr1 & E1 & Hwf1 & Hkeys1 & Hent1).
    destruct (IH fr1 (count + 1) Hwf1 ltac:(lia)) as (fr2 & E2 & Hwf2 & Hkeys2 & Hent2).
    { rewrite Hnext. simpl in Hlen. lia. }
    exists fr2. simpl. rewrite E1. split; [done|]. split; [done|].
    split; [by auto|].
    intros k. rewrite Hent2, Hent1, Hnext. rewrite <- app_assoc. f_equal.
    unfold mirrored. simpl. rewrite filter_cons. simpl.
    destruct (decide (k = j)) as [->|Hne].
    + by rewrite decide_True.
    + by rewrite decide_False by congruence.
Qed.

Lemma keep_neighbours_length (self : Neighbours) (i : Z) (p : pos) (l : list Z)
    (nb : list Z * list npfloat) :
  keep_neighbours self i p l = Ok nb -> length nb.1 = length nb.2.
Proof.
  revert nb. induction l as [|index l IH]; intros nb; simpl.
  - by intros [= <-].
  - destruct (index >? i); [|by apply IH].
    destruct (py_index (positions self) index) as [q| |]; simpl; [|done..].
    destruct (keep_neighbours self i p l) as [r| |]; simpl; [|done..].
    specialize (IH r eq_refl).
    destruct (_ && _); intros [= <-]; simpl; lia.
Qed.

Lemma _neighbours_for_one_Ok (self : Neighbours) (i : Z) (nb : list Z * list npfloat) :
  _neighbours_for_one self i = Ok nb ->
  exists p l,
    py_index (positions self) i = Ok p /\
    collect_neighbours (_start_index self) (_neighbour_list self)
      (_get_neighbours_subcells (_subcells_inrow self) (_subcell_length self) p) = Ok l /\
    keep_neighbours self i p l = Ok nb.
Proof.
  unfold _neighbours_for_one.
  destruct (py_index (positions self) i) as [p| |]; [|done..].
  unfold rbind at 1.
  destruct (collect_neighbours (_start_index self) (_neighbour_list self)
              (_get_neighbours_subcells (_subcells_inrow self) (_subcell_length self) p))
    as [l| |] eqn:El; [|done..].
  intros H. by exists p, l.
Qed.

Lemma _neighbours_for_one_length (self : Neighbours) (i : Z) (nb : list Z * list npfloat) :
  _neighbours_for_one self i = Ok nb -> length nb.1 = length nb.2.
Proof.
  intros H. destruct (_neighbours_for_one_Ok _ _ _ H) as (p & l & _ & _ & Hk).
  by apply keep_neighbours_length in Hk.
Qed.

(** One pass of the outer loop appends the pairs found for [i] to the
    adjacency of [i] and a copy of each of them to the adjacency of the
    particle it names. *)
Lemma frame_particle_spec (self : Neighbours) (fr : frame) (i : Z)
    (nb : list Z * list npfloat) :
  frame_wf fr -> _neighbours_for_one self i = Ok nb ->
  exists fr', frame_particle self fr i = (Ok tt, fr') /\ frame_wf fr' /\
    is_Some (fr'.1 !! i) /\
    (forall k, is_Some (fr.1 !! k) -> is_Some (fr'.1 !! k)) /\
    forall k, entries fr' k =
      entries fr k ++ (if decide (k = i) then zip nb.1 nb.2 else [])
                   ++ mirrored i k (zip nb.1 nb.2).
Proof.
  intros Hwf Hnb. pose proof (_neighbours_for_one_length _ _ _ Hnb) as Hlen.
  unfold frame_particle. rewrite Hnb. simpl.
  destruct (frame_own_spec fr i nb Hwf Hlen) as (fr1 & E1 & Hwf1 & Hi1 & Hkeys1 & Hent1).
  destruct (frame_others_spec fr1 i nb.2 0 nb.1 Hwf1 ltac:(lia))
    as (fr2 & E2 & Hwf2 & Hkeys2 & Hent2); [by rewrite drop_0|].
  exists fr2. rewrite E1. split; [done|]. split; [done|].
  split; [by auto|]. split; [by auto|].
  intros k. rewrite Hent2, Hent1, drop_0. by rewrite app_assoc.
Qed.

Lemma frame_particle_Ok (self : Neighbours) (fr fr' : frame) (i : Z) :
  frame_particle self fr i = (Ok tt, fr') ->
  exists nb, _neighbours_for_one self i = Ok nb.
Proof.
  unfold frame_particle.
  destruct (_neighbours_for_one self i) as [nb| |]; simpl; [by eexists|done..].
Qed.

(** The frame after the loop over the particles [l]: every adjacency is the
    one before followed by the contributions of the passes, in order. *)
Lemma frame_loop_spec (self : Neighbours) (l : list Z) (fr fr' : frame) :
  frame_wf fr -> frame_loop self fr l = (Ok tt, fr') ->
  frame_wf fr' /\
  (forall k, entries fr' k = entries fr k ++ concat (map (contribution self k) l)) /\
  (forall k, k ∈ l -> is_Some (fr'.1 !! k)) /\
  (forall k, is_Some (fr.1 !! k) -> is_Some (fr'.1 !! k)).
Proof.
  revert fr. induction l as [|i l IH]; intros fr Hwf; simpl.
  - intros [= <-]. split; [done|]. split; [intros k; by rewrite app_nil_r|].
    split; [|done]. intros k Hk. by apply elem_of_nil in Hk.
  - destruct (frame_particle self fr i) as [r fr1] eqn:E1.
    destruct r as [[]| |]; [|done..].
    destruct (frame_particle_Ok _ _ _ _ E1) as [nb Hnb].
    destruct (frame_particle_spec self fr i nb Hwf Hnb)
      as (fr1' & E1' & Hwf1 & Hi1 & Hkeys1 & Hent1).
    assert (fr1' = fr1) as -> by congruence.
    intros H. destruct (IH fr1 Hwf1 H) as (Hwf' & Hent' & Hin' & Hkeys').
    split; [done|]. split; [|split].
    + intros k. rewrite Hent', Hent1.
      assert (Hc : contribution self k i =
                   (if decide (k = i) then zip nb.1 nb.2 else [])
                     ++ mirrored i k (zip nb.1 nb.2))
        by (unfold contribution, pairs; by rewrite Hnb).
      simpl. rewrite Hc. by rewrite <- !app_assoc.
    + intros k Hk. apply elem_of_cons in Hk as [->|Hk]; auto.
    + auto.
Qed.

Lemma frame_loop_total (self : Neighbours) (l : list Z) (fr : frame) :
  frame_wf fr ->
  (forall i, i ∈ l -> exists nb, _neighbours_for_one self i = Ok nb) ->
  exists fr', frame_loop self fr l = (Ok tt, fr').
Proof.
  revert fr. induction l as [|i l IH]; intros fr Hwf Hall; simpl; [by eexists|].
  destruct (Hall i) as [nb Hnb]; [by left|].
  destruct (frame_particle_spec self fr i nb Hwf Hnb) as (fr1 & E1 & Hwf1 & _).
  rewrite E1. apply IH; [done|]. intros j Hj. apply Hall. by right.
Qed.

Lemma elem_of_mirrored (i k : Z) (nb : list (Z * npfloat)) (j : Z) (d : npfloat) :
  (j, d) ∈ mirrored i k nb <-> j = i /\ (k, d) ∈ nb.
Proof.
  unfold mirrored. rewrite list_elem_of_fmap. split.
  - intros ([k' d'] & [= -> ->] & Hin). apply list_elem_of_filter in Hin as [Hk Hin].
    simpl in Hk. by subst.
  - intros [-> Hin]. exists (k, d). split; [done|].
    apply list_elem_of_filter. by split.
Qed.

Lemma elem_of_contribution (self : Neighbours) (k i j : Z) (d : npfloat) :
  (j, d) ∈ contribution self k i <->
  (k = i /\ (j, d) ∈ pairs self i) \/ (j = i /\ (k, d) ∈ pairs self i).
Proof.
  unfold contribution. rewrite elem_of_app, elem_of_mirrored.
  destruct (decide (k = i)) as [->|Hne]; [tauto|].
  split; [intros [H|H]; [by apply elem_of_nil in H|tauto]|].
  intros [[? _]|H]; [done|tauto].
Qed.

Lemma elem_of_concat_map {A B : Type} (f : A -> list B) (l : list A) (x : B) :
  x ∈ concat (map f l) <-> exists a, a ∈ l /\ x ∈ f a.
Proof.
  induction l as [|a l IH]; simpl.
  - split; [intros H; by apply elem_of_nil in H|].
    intros (a & Ha & _). by apply elem_of_nil in Ha.
  - rewrite elem_of_app, IH. split.
    + intros [H|(a' & Ha' & H)]; [exists a; split; [by left|done]|].
      exists a'. split; [by right|done].
    + intros (a' & Ha' & H). apply elem_of_cons in Ha' as [->|Ha']; [by left|].
      right. by exists a'.
Qed.

Lemma elem_of_contributions (self : Neighbours) (l : list Z) (k j : Z) (d : npfloat) :
  (j, d) ∈ concat (map (contribution self k) l) <->
  (k ∈ l /\ (j, d) ∈ pairs self k) \/ (j ∈ l /\ (k, d) ∈ pairs self j).
Proof.
  rewrite elem_of_concat_map. split.
  - intros (i & Hi & Hjd).
    apply elem_of_contribution in Hjd as [[-> H]|[-> H]]; tauto.
  - intros [[Hk H]|[Hj H]].
    + exists k. split; [done|]. apply elem_of_contribution; tauto.
    + exists j. split; [done|]. apply elem_of_contribution; tauto.
Qed.

(** The frame of an object whose frame was just rebuilt. *)
Lemma _create_neighbours_frame_Ok (self self' : Neighbours) :
  _create_neighbours_frame self = (Ok tt, self') ->
  self' = set_frame self (get_frame self') /\
  frame_loop self (∅, ∅) (range (num_particles (info self))) = (Ok tt, get_frame self').
Proof.
  unfold _create_neighbours_frame.
  destruct (frame_loop self (∅, ∅) _) as [r fr] eqn:E. intros [= -> <-].
  unfold get_frame. simpl. by destruct fr.
Qed.

Lemma rebuilt_entries (self self' : Neighbours) (k j : Z) (d : npfloat) :
  _create_neighbours_frame self = (Ok tt, self') ->
  (j, d) ∈ entries (get_frame self') k <->
  (0 <= k < num_particles (info self) /\ (j, d) ∈ pairs self k) \/
  (0 <= j < num_particles (info self) /\ (k, d) ∈ pairs self j).
Proof.
  intros H. apply _create_neighbours_frame_Ok in H as [_ H].
  destruct (frame_loop_spec _ _ _ _ frame_wf_empty H) as (_ & Hent & _).
  rewrite Hent. unfold entries at 1. simpl. rewrite lookup_empty. simpl.
  rewrite elem_of_contributions. by rewrite !elem_of_range.
Qed.

Lemma elem_of_zip_lookup {A B : Type} (l : list A) (k : list B) (a : A) (b : B) :
  (a, b) ∈ zip l k <-> exists n, l !! n = Some a /\ k !! n = Some b.
Proof.
  rewrite list_elem_of_lookup. split.
  - intros [n Hn]. exists n. apply lookup_zip_with_Some in Hn as (x & y & [= -> ->] & ? & ?).
    done.
  - intros (n & Ha & Hb). exists n. apply lookup_zip_with_Some. by exists a, b.
Qed.

(** C2.  After a rebuild of the frame the adjacency is symmetric: when
    the neighbour list of [i] holds [j] at some position and the distance
    list of [i] holds [d] at that position, the neighbour list of [j] holds
    [i] at some position where the distance list of [j] holds the same
    value [d]. *)
Theorem C2_frame_symmetric (self self' : Neighbours) (i j : Z) (n : nat)
    (nb_ID : list Z) (nb_dist : list npfloat) (d : npfloat) :
  _create_neighbours_frame self = (Ok tt, self') ->
  _neighbours_frame_IDs self' !! i = Some nb_ID ->
  _neighbours_frame_dist self' !! i = Some nb_dist ->
  nb_ID !! n = Some j -> nb_dist !! n = Some d ->
  exists nb_ID' nb_dist' n',
    _neighbours_frame_IDs self' !! j = Some nb_ID' /\
    _neighbours_frame_dist self' !! j = Some nb_dist' /\
    nb_ID' !! n' = Some i /\ nb_dist' !! n' = Some d.
Proof.
  intros Hframe Hids Hdist Hj Hd.
  assert (Hin : (j, d) ∈ entries (get_frame self') i).
  { unfold entries, get_frame. simpl. rewrite Hids, Hdist.
    apply elem_of_zip_lookup. by exists n. }
  assert (Hsym : (i, d) ∈ entries (get_frame self') j).
  { apply (rebuilt_entries _ _ _ _ _ Hframe).
    apply (rebuilt_entries _ _ _ _ _ Hframe) in Hin. tauto. }
  unfold entries, get_frame in Hsym. simpl in Hsym.
  destruct (_neighbours_frame_IDs self' !! j) as [a|]; [|by apply elem_of_nil in Hsym].
  destruct (_neighbours_frame_dist self' !! j) as [b|]; [|by apply elem_of_nil in Hsym].
  apply elem_of_zip_lookup in Hsym as (n' & Ha & Hb). by exists a, b, n'.
Qed.

(** [wrap_self] is the object on which the constructor builds the frame. *)
Lemma wrap_self_constructed :
  exists self,
    _create_neighbours_frame wrap_self = (Ok tt, self) /\
    Neighbours_init 10 wrap_info wrap_positions = Ok self.
Proof. eexists. split; vm_compute; reflexivity. Qed.

Lemma C2_frame_symmetric_witness :
  exists self',
    _create_neighbours_frame wrap_self = (Ok tt, self') /\
    exists nb_ID' nb_dist' n',
      _neighbours_frame_IDs self' !! 1 = Some nb_ID' /\
      _neighbours_frame_dist self' !! 1 = Some nb_dist' /\
      nb_ID' !! n' = Some 0 /\ nb_dist' !! n' = Some (Sqrt 1).
Proof.
  eexists. split; [vm_compute; reflexivity|].
  eapply (C2_frame_symmetric wrap_self _ 0 1 0 [1] [Sqrt 1] (Sqrt 1));
    vm_compute; reflexivity.
Defined.

(** ** update_neighbours *)

Lemma update_neighbours_Ok (System_states : list (list pos)) (self self' : Neighbours)
    (nl : list Z) :
  update_neighbours System_states self = (Ok nl, self') ->
  exists self1 positions_old positions_current,
    _create_neighbours_frame self = (Ok tt, self1) /\
    py_index System_states (_last_update self1) = Ok positions_old /\
    py_index System_states (-1) = Ok positions_current /\
    rebuild_test self1 positions_old positions_current = Ok false /\
    self' = set_update_count self1 1 /\ nl = _neighbour_list self1.
Proof.
  unfold update_neighbours.
  destruct (_create_neighbours_frame self) as [r self1] eqn:Hf.
  destruct r as [[]| |]; [|done..].
  destruct (py_index System_states (_last_update self1)) as [old| |] eqn:Ho; [|done..].
  destruct (py_index System_states (-1)) as [cur| |] eqn:Hc; [|done..].
  simpl. destruct (rebuild_test self1 old cur) as [far| |] eqn:Ht; [|done..].
  simpl. destruct far; [done|]. intros H. injection H as H1 H2. subst nl self'.
  by exists self1, old, cur.
Qed.

(** Every call that returns leaves the counter at 1, whatever it was. *)
Lemma update_count_after_call (System_states : list (list pos)) (self self' : Neighbours)
    (nl : list Z) :
  update_neighbours System_states self = (Ok nl, self') -> _update_count self' = 1.
Proof.
  intros H. by destruct (update_neighbours_Ok _ _ _ _ H)
    as (self1 & old & cur & _ & _ & _ & _ & -> & _).
Qed.

(** A call that takes the rebuild branch ends in AttributeError and leaves
    the counter as it was. *)
Lemma update_count_after_rebuild_branch (System_states : list (list pos))
    (self self' : Neighbours) :
  update_neighbours System_states self = (Raise AttributeError, self') ->
  _update_count self' = _update_count self.
Proof.
  unfold update_neighbours, _create_neighbours_frame.
  destruct (frame_loop self (∅, ∅) _) as [r fr].
  destruct r as [[]|e|]; [|by intros [= _ <-]|done].
  set (self1 := set_frame self fr).
  destruct (py_index System_states (_last_update self1)) as [old| |];
    [|by intros [= _ <-]|done].
  destruct (py_index System_states (-1)) as [cur| |]; [|by intros [= _ <-]|done].
  simpl. destruct (rebuild_test self1 old cur) as [far| |]; [|by intros [= _ <-]|done].
  simpl. destruct far; [by intros [= <-]|done].
Qed.

(** C9, the code at the failing input.  Two calls in a row on the object
    of the wrap example, the positions unchanged: both return, the counter
    is 1 after the first call and still 1 after the second, where one more
    than before would be 2. *)
Theorem C9_counter_stays_at_one :
  exists self0 self1 self2 nl1 nl2,
    Neighbours_init 10 wrap_info wrap_positions = Ok self0 /\
    update_neighbours [wrap_positions] self0 = (Ok nl1, self1) /\
    update_neighbours [wrap_positions] self1 = (Ok nl2, self2) /\
    _update_count self0 = 0 /\
    _update_count self1 = 1 /\
    _update_count self2 = 1 /\
    _update_count self2 <> _update_count self1 + 1.
Proof.
  do 5 eexists. split; [vm_compute; reflexivity|].
  split; [vm_compute; reflexivity|].
  split; [vm_compute; reflexivity|].
  repeat split; vm_compute; congruence.
Qed.

(** C3, the code at two failing inputs, with skin margin 1.
    (a) Particle 0 moves from (0,0,0) to (2,0,0): its displacement 2 exceeds
    the margin, but the code takes the square root of [0 - 4], the maximum
    is NaN, the test is false and the call returns without a rebuild.
    (b) Particle 0 moves from (5,0,0) to (4.5,0,0): its displacement 1/2 is
    within the margin, but the code compares the square root of
    [25 - 20.25] with the margin and takes the rebuild branch. *)
Theorem C3_rebuild_test_is_not_the_displacement :
  (exists self0 self1 nl,
     let last := [mk_pos 0 0 0; mk_pos 9 0 0] in
     let current := [mk_pos 2 0 0; mk_pos 9 0 0] in
     Neighbours_init 3 margin_info last = Ok self0 /\
     spec_should_rebuild current last (_skin_radius self0) (cutoff (info self0)) = true /\
     rebuild_test self0 last current = Ok false /\
     update_neighbours [last; current] self0 = (Ok nl, self1)) /\
  (exists self0 self1,
     let last := [mk_pos 5 0 0; mk_pos 9 0 0] in
     let current := [mk_pos (9 # 2) 0 0; mk_pos 9 0 0] in
     Neighbours_init 3 margin_info last = Ok self0 /\
     spec_should_rebuild current last (_skin_radius self0) (cutoff (info self0)) = false /\
     rebuild_test self0 last current = Ok true /\
     update_neighbours [last; current] self0 = (Raise AttributeError, self1)).
Proof.
  split.
  - do 3 eexists. cbv zeta. split; [vm_compute; reflexivity|].
    repeat split; vm_compute; reflexivity.
  - do 2 eexists. cbv zeta. split; [vm_compute; reflexivity|].
    repeat split; vm_compute; reflexivity.
Qed.

(** C5, the code at the failing input.  Box length 6, two subcells per row
    of length 3.  Particle 1 sits at (0,0,6): its z subcell coordinate is
    2, out of range, and its linear id 8 is past the end of the head array.
    The constructor returns all the same, and particle 1 is in no chain:
    it heads no subcell and follows no particle.  A negative subcell
    coordinate, by contrast, raises ValueError.  A particle at (6,0,0) has
    the x subcell coordinate 2, out of range as well, but the linear id 2:
    it is linked as the head of subcell 2, the subcell of (0,3,0). *)
Theorem C5_particle_silently_dropped :
  (exists self,
     Neighbours_init 2 (small_info 2) [mk_pos 0 0 0; mk_pos 0 0 6] = Ok self /\
     _find_subcell (_subcells_inrow self) (_subcell_length self) (mk_pos 0 0 6) = Ok 8 /\
     length (_start_index self) = 8%nat /\
     (1 ∉ _start_index self) /\
     (1 ∉ _neighbour_list self)) /\
  Neighbours_init 2 (small_info 2) [mk_pos 0 0 0; mk_pos 0 0 (-1)] = Raise ValueError /\
  (exists self,
     Neighbours_init 2 (small_info 2) [mk_pos 0 0 0; mk_pos 6 0 0] = Ok self /\
     _start_index self !! 2%nat = Some 1 /\
     _find_subcell (_subcells_inrow self) (_subcell_length self) (mk_pos 0 3 0) = Ok 2).
Proof.
  split; [|split; [vm_compute; reflexivity|]].
  - eexists. split; [vm_compute; reflexivity|].
    split; [vm_compute; reflexivity|]. split; [vm_compute; reflexivity|].
    split; apply (bool_decide_unpack _); vm_compute; exact I.
  - eexists. split; [vm_compute; reflexivity|]. split; vm_compute; reflexivity.
Qed.

Lemma frame_loop_set_update_count (self : Neighbours) (n : Z) (fr : frame) (l : list Z) :
  frame_loop (set_update_count self n) fr l = frame_loop self fr l.
Proof.
  assert (Hk : forall i p c, keep_neighbours (set_update_count self n) i p c
                             = keep_neighbours self i p c).
  { intros i p c. induction c as [|index c IH]; simpl; [done|]. by rewrite IH. }
  assert (Hn : forall i, _neighbours_for_one (set_update_count self n) i
                         = _neighbours_for_one self i).
  { intros i. unfold _neighbours_for_one.
    change (positions (set_update_count self n)) with (positions self).
    change (_subcells_inrow (set_update_count self n)) with (_subcells_inrow self).
    change (_subcell_length (set_update_count self n)) with (_subcell_length self).
    change (_start_index (set_update_count self n)) with (_start_index self).
    change (_neighbour_list (set_update_count self n)) with (_neighbour_list self).
    destruct (py_index (positions self) i) as [p| |]; [|done..].
    unfold rbind at 1 3.
    destruct (collect_neighbours (_start_index self) (_neighbour_list self) _)
      as [c| |]; [|done..].
    apply Hk. }
  revert fr. induction l as [|i l IH]; intros fr; simpl; [done|].
  unfold frame_particle. rewrite Hn.
  destruct (attempt _ _ _) as [[[]| |] fr']; [apply IH|done..].
Qed.

Lemma constructed_frame_current (fuel : nat) (si : SystemInfo) (ps : list pos)
    (self : Neighbours) :
  constructed fuel si ps self -> frame_current self.
Proof.
  intros H. unfold frame_current. rewrite (built_info _ _ _ _ H).
  apply (built_frame _ _ _ _ H).
Qed.




(** ** The linked lists built by _create_neighbours *)

Lemma walk_chain_fuel (nl : list Z) (fuel fuel' : nat) (h : Z) :
  decreasing nl -> h < Z.of_nat fuel -> h < Z.of_nat fuel' ->
  walk_chain fuel nl h = walk_chain fuel' nl h.
Proof.
  intros Hdec. revert fuel' h. induction fuel as [|fuel IH]; intros fuel' h Hf Hf'.
  - destruct fuel'; simpl; destruct (h <? 0) eqn:E; try done; lia.
  - destruct fuel' as [|fuel']; simpl; destruct (h <? 0) eqn:E; try done; [lia|].
    destruct (py_index nl h) as [next| |] eqn:En; simpl; [|done..].
    apply py_index_Ok in En; [|lia]. apply Hdec in En.
    rewrite (IH fuel' next); [done|lia..].
Qed.

Lemma walk_chain_insert (nl : list Z) (fuel : nat) (n : nat) (v h : Z) :
  decreasing nl -> h < Z.of_nat n ->
  walk_chain fuel (<[n := v]> nl) h = walk_chain fuel nl h.
Proof.
  intros Hdec. revert h. induction fuel as [|fuel IH]; intros h Hh; simpl; [done|].
  destruct (h <? 0) eqn:E; [done|].
  assert (Hi : py_index (<[n := v]> nl) h = py_index nl h).
  { unfold py_index. rewrite length_insert, E.
    destruct (_ && _); [|done]. rewrite list_lookup_insert_ne; [done|lia]. }
  rewrite Hi. destruct (py_index nl h) as [next| |] eqn:En; simpl; [|done..].
  apply py_index_Ok in En; [|lia]. apply Hdec in En.
  rewrite IH; [done|lia].
Qed.

Section Chains.
Variables (m : Z) (sl : Q) (ps : list pos).

Lemma linked_start :
  linked m sl ps 0 (replicate (Z.to_nat (m ^ 3)) (-1), replicate (length ps) (-1)).
Proof.
  split; simpl.
  - by rewrite length_replicate.
  - by rewrite length_replicate.
  - intros k v Hk. apply lookup_replicate in Hk as [-> _]. lia.
  - intros c Hc. rewrite length_replicate in Hc. exists (-1).
    split; [by apply lookup_replicate|]. split; [lia|].
    by destruct (length ps).
Qed.

Lemma _find_subcell_nonneg (p : pos) (c : Z) : _find_subcell m sl p = Ok c -> 0 <= m -> 0 <= c.
Proof.
  unfold _find_subcell.
  destruct (_ || _) eqn:E; [done|]. intros [= <-] Hm.
  apply orb_false_iff in E as [E Ez]. apply orb_false_iff in E as [Ex Ey].
  apply Z.ltb_ge in Ex, Ey, Ez.
  assert (0 <= m ^ 2) by (apply Z.pow_nonneg; lia).
  repeat apply Z.add_nonneg_nonneg; try apply Z.mul_nonneg_nonneg; done.
Qed.

Lemma link_particle_linked (n : nat) (st : list Z * list Z) (p : pos) (c0 : Z) :
  ps !! n = Some p -> _find_subcell m sl p = Ok c0 -> 0 <= c0 ->
  linked m sl ps n st -> linked m sl ps (S n) (link_particle st (Z.of_nat n) c0).
Proof.
  intros Hp Hc0 Hpos [Hheads Hnext Hdec Hchain].
  destruct st as [start nl]. simpl in *.
  assert (Hn : (n < length nl)%nat) by (rewrite Hnext; by apply lookup_lt_Some in Hp).
  unfold link_particle.
  destruct (decide (c0 < Z.of_nat (length start))) as [Hin|Hout].
  - destruct (Hchain (Z.to_nat c0) ltac:(lia)) as (h0 & Hh0 & Hr0 & Hw0).
    assert (E0 : py_index start c0 = Ok h0) by (by apply py_index_Ok).
    rewrite E0.
    assert (E1 : py_setitem nl (Z.of_nat n) h0 = Ok (<[n := h0]> nl)).
    { unfold py_setitem. destruct (Z.of_nat n <? 0) eqn:E; [lia|].
      rewrite Nat2Z.id.
      destruct ((0 <=? Z.of_nat n) && (Z.of_nat n <? Z.of_nat (length nl))) eqn:E';
        [done|]. apply andb_false_iff in E'. lia. }
    rewrite E1.
    assert (E2 : py_setitem start c0 (Z.of_nat n)
                 = Ok (<[Z.to_nat c0 := Z.of_nat n]> start)).
    { unfold py_setitem. destruct (c0 <? 0) eqn:E; [lia|].
      destruct ((0 <=? c0) && (c0 <? Z.of_nat (length start))) eqn:E'; [done|].
      apply andb_false_iff in E'. lia. }
    rewrite E2. split; simpl.
    + by rewrite length_insert.
    + by rewrite length_insert.
    + intros k v Hk. destruct (decide (k = n)) as [->|Hne].
      * rewrite list_lookup_insert_eq in Hk by done. injection Hk as <-. lia.
      * rewrite list_lookup_insert_ne in Hk by done. by apply Hdec.
    + intros c Hc. rewrite length_insert in Hc. rewrite Hp, Hc0.
      destruct (decide (c = Z.to_nat c0)) as [->|Hne].
      * exists (Z.of_nat n). rewrite list_lookup_insert_eq by done.
        split; [done|]. split; [lia|].
        rewrite Z2Nat.id by done. rewrite decide_True by done.
        destruct (length ps) as [|f] eqn:Ef; [lia|]. simpl.
        destruct (Z.of_nat n <? 0) eqn:E; [lia|].
        assert (Ei : py_index (<[n := h0]> nl) (Z.of_nat n) = Ok h0).
        { apply py_index_Ok; [lia|]. rewrite Nat2Z.id.
          by apply list_lookup_insert_eq. }
        rewrite Ei. simpl. rewrite walk_chain_insert by (done || lia).
        rewrite (walk_chain_fuel nl f (S f)) by (done || lia).
        rewrite Z2Nat.id in Hw0 by done. by rewrite Hw0.
      * destruct (Hchain c Hc) as (h & Hh & Hr & Hw).
        exists h. rewrite list_lookup_insert_ne by done.
        split; [done|]. split; [lia|].
        rewrite decide_False by lia.
        rewrite walk_chain_insert by (done || lia). done.
  - rewrite py_index_out_of_range by lia. split; simpl; [done..|].
    intros c Hc. destruct (Hchain c Hc) as (h & Hh & Hr & Hw).
    exists h. split; [done|]. split; [lia|].
    rewrite Hp, Hc0. rewrite decide_False by lia. done.
Qed.

Lemma _create_neighbours_loop_linked (rest : list pos) (n : nat)
    (st st' : list Z * list Z) :
  0 <= m -> (n <= length ps)%nat -> drop n ps = rest -> linked m sl ps n st ->
  _create_neighbours_loop m sl rest (Z.of_nat n) st = Ok st' ->
  linked m sl ps (length ps) st'.
Proof.
  intros Hm. revert n st.
  induction rest as [|p rest IH]; intros n st Hle Hdrop Hl; simpl.
  - intros [= <-]. assert (Hn : (length ps <= n)%nat).
    { apply (f_equal length) in Hdrop. rewrite length_drop in Hdrop. simpl in Hdrop. lia. }
    by replace (length ps) with n by lia.
  - assert (Hp : ps !! n = Some p).
    { pose proof (lookup_drop ps n 0) as Hl0. rewrite Hdrop, Nat.add_0_r in Hl0.
      by rewrite <- Hl0. }
    destruct (_find_subcell m sl p) as [c0| |] eqn:Hc0; simpl; [|done..].
    replace (Z.of_nat n + 1) with (Z.of_nat (S n)) by lia.
    apply IH.
    + apply lookup_lt_Some in Hp. lia.
    + replace (S n) with (n + 1)%nat by lia. rewrite <- drop_drop, Hdrop. done.
    + apply (link_particle_linked n st p c0); try done.
      by apply (_find_subcell_nonneg p).
Qed.

Lemma _create_neighbours_linked (lists : list Z * list Z) :
  0 <= m -> _create_neighbours m sl ps = Ok lists -> linked m sl ps (length ps) lists.
Proof.
  intros Hm H. unfold _create_neighbours in H.
  eapply (_create_neighbours_loop_linked ps 0 _ lists Hm);
    [lia|done|apply linked_start|exact H].
Qed.

Lemma elem_of_chain_upto (n : nat) (c k : Z) :
  k ∈ chain_upto m sl ps n c <->
  exists (i : nat) (p : pos),
    k = Z.of_nat i /\ (i < n)%nat /\ ps !! i = Some p /\ _find_subcell m sl p = Ok c.
Proof.
  induction n as [|n IH]; simpl.
  - split; [intros H; by apply elem_of_nil in H|]. intros (i & p & _ & Hi & _). lia.
  - assert (Hstep : k ∈ chain_upto m sl ps n c ->
              exists (i : nat) (p : pos),
                k = Z.of_nat i /\ (i < S n)%nat /\ ps !! i = Some p /\
                _find_subcell m sl p = Ok c).
    { intros H. apply IH in H as (i & p & ? & ? & ? & ?). exists i, p. repeat split; try done. lia. }
    destruct (ps !! n) as [p|] eqn:Hp.
    + destruct (_find_subcell m sl p) as [c'| |] eqn:Hc.
      * destruct (decide (c' = c)) as [->|Hne].
        -- rewrite elem_of_cons. split.
           ++ intros [->|H]; [|by apply Hstep].
              exists n, p. repeat split; (done || lia).
           ++ intros (i & q & -> & Hi & Hq & Hcq).
              destruct (decide (i = n)) as [->|Hin]; [by left|].
              right. apply IH. exists i, q. repeat split; try done. lia.
        -- split; [apply Hstep|]. intros (i & q & -> & Hi & Hq & Hcq).
           destruct (decide (i = n)) as [->|Hin]; [congruence|].
           apply IH. exists i, q. repeat split; try done. lia.
      * split; [apply Hstep|]. intros (i & q & -> & Hi & Hq & Hcq).
        destruct (decide (i = n)) as [->|Hin]; [congruence|].
        apply IH. exists i, q. repeat split; try done. lia.
      * split; [apply Hstep|]. intros (i & q & -> & Hi & Hq & Hcq).
        destruct (decide (i = n)) as [->|Hin]; [congruence|].
        apply IH. exists i, q. repeat split; try done. lia.
    + split; [apply Hstep|]. intros (i & q & -> & Hi & Hq & Hcq).
      destruct (decide (i = n)) as [->|Hin]; [congruence|].
      apply IH. exists i, q. repeat split; try done. lia.
Qed.

Lemma chain_upto_NoDup (n : nat) (c : Z) : NoDup (chain_upto m sl ps n c).
Proof.
  induction n as [|n IH]; simpl; [constructor|].
  destruct (ps !! n) as [p|]; [|done].
  destruct (_find_subcell m sl p) as [c'| |]; [|done..].
  destruct (decide (c' = c)); [|done].
  constructor; [|done]. intros H. apply elem_of_chain_upto in H as (i & q & ? & ? & _). lia.
Qed.
End Chains.

(** ** What _neighbours_for_one returns on well-built lists *)

Lemma collect_neighbours_spec (m : Z) (sl : Q) (ps : list pos) (start nl : list Z)
    (cells : list Z) :
  linked m sl ps (length ps) (start, nl) ->
  (forall c, c ∈ cells -> 0 <= c < m ^ 3) ->
  collect_neighbours start nl cells
    = Ok (concat (map (chain_upto m sl ps (length ps)) cells)).
Proof.
  intros [Hheads Hnext Hdec Hchain]. simpl in *.
  induction cells as [|c cells IH]; intros Hcells; simpl; [done|].
  assert (Hc : 0 <= c < m ^ 3) by (apply Hcells; by left).
  destruct (Hchain (Z.to_nat c) ltac:(lia)) as (h & Hh & Hr & Hw).
  rewrite (proj2 (py_index_Ok start c h ltac:(lia)) Hh). simpl.
  rewrite Hnext, Hw. simpl. rewrite IH by (intros c' Hc'; apply Hcells; by right).
  simpl. by rewrite Z2Nat.id by lia.
Qed.

Lemma keep_neighbours_spec (self : Neighbours) (i : Z) (p : pos) (l : list Z) :
  (forall j, j ∈ l -> 0 <= j < Z.of_nat (length (positions self))) ->
  exists nb, keep_neighbours self i p l = Ok nb /\
             zip nb.1 nb.2 = concat (map (kept self i p) l).
Proof.
  induction l as [|j l IH]; intros Hl; simpl; [by exists ([], [])|].
  destruct IH as (nb & Hnb & Hzip); [intros j' Hj'; apply Hl; by right|].
  assert (Hj : 0 <= j < Z.of_nat (length (positions self))) by (apply Hl; by left).
  unfold kept at 1. destruct (j >? i); [|by exists nb].
  destruct (py_index_in_range (positions self) j Hj) as [q Hq]. rewrite Hq. simpl.
  apply py_index_Ok in Hq; [|lia]. rewrite Hq, Hnb. simpl.
  destruct (_ && _); [|by exists nb].
  eexists. split; [done|]. simpl. by rewrite Hzip.
Qed.

Lemma chain_upto_bound (m : Z) (sl : Q) (ps : list pos) (n : nat) (c k : Z) :
  k ∈ chain_upto m sl ps n c -> 0 <= k < Z.of_nat n.
Proof. intros H. apply elem_of_chain_upto in H as (i & p & -> & Hi & _). lia. Qed.

Lemma _neighbours_for_one_spec (self : Neighbours) (i : nat) (p : pos) :
  well_linked self -> positions self !! i = Some p ->
  exists nb, _neighbours_for_one self (Z.of_nat i) = Ok nb /\
    zip nb.1 nb.2 = concat (map (kept self (Z.of_nat i) p) (candidates self p)).
Proof.
  intros [Hm Hl] Hp. unfold _neighbours_for_one.
  rewrite (proj2 (py_index_Ok (positions self) (Z.of_nat i) p ltac:(lia)));
    [|by rewrite Nat2Z.id].
  unfold rbind at 1.
  rewrite (collect_neighbours_spec _ _ _ _ _ _ Hl);
    [|intros c Hc; by apply _get_neighbours_subcells_range in Hc].
  unfold rbind. apply keep_neighbours_spec.
  intros j Hj. apply elem_of_concat_map in Hj as (c & _ & Hj).
  by apply chain_upto_bound in Hj.
Qed.

Lemma pairs_spec (self : Neighbours) (i : nat) (p : pos) :
  well_linked self -> positions self !! i = Some p ->
  pairs self (Z.of_nat i) = concat (map (kept self (Z.of_nat i) p) (candidates self p)).
Proof.
  intros Hw Hp. destruct (_neighbours_for_one_spec self i p Hw Hp) as (nb & Hnb & Hzip).
  unfold pairs. by rewrite Hnb.
Qed.

Lemma constructed_well_linked (fuel : nat) (si : SystemInfo) (ps : list pos)
    (self : Neighbours) :
  constructed fuel si ps self -> well_linked self.
Proof.
  intros H. pose proof (constructed_subcells_inrow _ _ _ _ H) as Hm.
  split; [done|]. rewrite (built_positions _ _ _ _ H).
  apply _create_neighbours_linked; [lia|]. apply (built_lists _ _ _ _ H).
Qed.

(** ** The constructor returns *)

Lemma Qfloor_nonneg (x : Q) : (0 <= x)%Q -> 0 <= Qfloor x.
Proof. intros H. change 0 with (Qfloor 0). by apply Qfloor_resp_le. Qed.

Lemma _find_subcell_total (m : Z) (sl : Q) (p : pos) :
  (0 < sl)%Q -> (0 <= px p)%Q -> (0 <= py p)%Q -> (0 <= pz p)%Q ->
  exists c, _find_subcell m sl p = Ok c.
Proof.
  intros Hsl Hx Hy Hz. unfold _find_subcell.
  assert (H : forall a, (0 <= a)%Q -> (Qfloor (a / sl) <? 0) = false).
  { intros a Ha. apply Z.ltb_ge, Qfloor_nonneg. apply Qle_shift_div_l; [done|]. lra. }
  rewrite !H by done. simpl. by eexists.
Qed.

Lemma _create_neighbours_loop_total (m : Z) (sl : Q) (ps : list pos) (i : Z)
    (st : list Z * list Z) :
  (forall p, p ∈ ps -> exists c, _find_subcell m sl p = Ok c) ->
  exists st', _create_neighbours_loop m sl ps i st = Ok st'.
Proof.
  revert i st. induction ps as [|p ps IH]; intros i st Hall; simpl; [by eexists|].
  destruct (Hall p) as [c Hc]; [by left|]. rewrite Hc. simpl.
  apply IH. intros q Hq. apply Hall. by right.
Qed.

Lemma Neighbours_init_total (si : SystemInfo) (ps : list pos) :
  (0 < char_length si)%Q -> (0 < worse_sigma si)%Q ->
  (forall p, p ∈ ps -> nonnegative p) ->
  num_particles si <= Z.of_nat (length ps) ->
  exists self, forall fuel,
    (Z.to_nat (Qceiling (char_length si / (worse_sigma si * 3))) <= fuel)%nat ->
    Neighbours_init fuel si ps = Ok self.
Proof.
  intros Hbox Hw Hps Hnum.
  destruct (_create_subcells_loop_total (worse_sigma si * 3)%Q (char_length si))
    as [m Hm]; [lra|done|].
  pose proof (_create_subcells_loop_Ok _ _ _ _ _ (Hm _ (Nat.le_refl _))) as (Hm1 & _).
  set (sl := (char_length si / inject_Z m)%Q).
  assert (Hsl : (0 < sl)%Q).
  { apply Qlt_shift_div_l; [rewrite <- (Zlt_Qlt 0); lia|lra]. }
  destruct (_create_neighbours_loop_total m sl ps 0
              (replicate (Z.to_nat (m ^ 3)) (-1), replicate (length ps) (-1)))
    as [lists Hlists].
  { intros p Hp. destruct (Hps p Hp) as (Hx & Hy & Hz). by apply _find_subcell_total. }
  set (self0 := mk_Neighbours si ps (char_length si) (worse_sigma si * 3)%Q m sl
                  lists.1 lists.2 ∅ ∅ 0 0).
  assert (Hwl : well_linked self0).
  { split; [done|]. simpl. destruct lists as [start nl].
    apply _create_neighbours_linked; [lia|done]. }
  destruct (frame_loop_total self0 (range (num_particles si)) (∅, ∅) frame_wf_empty)
    as [fr Hfr].
  { intros i Hi. apply elem_of_range in Hi.
    destruct (lookup_lt_is_Some_2 ps (Z.to_nat i)) as [p Hp]; [lia|].
    destruct (_neighbours_for_one_spec self0 (Z.to_nat i) p Hwl Hp) as (nb & Hnb & _).
    exists nb. by rewrite Z2Nat.id in Hnb by lia. }
  exists (set_frame self0 fr). intros fuel Hfuel.
  unfold Neighbours_init, _create_subcells. rewrite (Hm fuel Hfuel). simpl.
  fold sl. unfold _create_neighbours. rewrite Hlists. simpl.
  unfold _create_neighbours_frame. simpl. fold self0. by rewrite Hfr.
Qed.

(** ** Construction and the skin margin *)

Lemma SystemInfo_init_cases (characteristic_length sigma worse : Q) (num : Z) :
  ~ (sigma * 3 == 0)%Q ->
  let cutoff_radius := (sigma * 3)%Q in
  let box := (inject_Z (Qceiling (characteristic_length / cutoff_radius)) * cutoff_radius)%Q in
  (SystemInfo_init characteristic_length sigma worse num = Raise ValueError /\
   (box / 2 < cutoff_radius)%Q) \/
  (SystemInfo_init characteristic_length sigma worse num
     = Ok (mk_SystemInfo box cutoff_radius worse num) /\
   (cutoff_radius <= box / 2)%Q).
Proof.
  intros Hs. cbv zeta. unfold SystemInfo_init.
  destruct (Qeq_bool (sigma * 3) 0) eqn:E0; [by apply Qeq_bool_iff in E0|].
  destruct (Qle_bool (sigma * 3) _) eqn:E; simpl.
  - right. split; [done|]. by apply Qle_bool_iff.
  - left. split; [done|]. apply Qnot_le_lt. intros H. apply Qle_bool_iff in H. congruence.
Qed.


Lemma nonnegative_wrap_positions : forall p, p ∈ wrap_positions -> nonnegative p.
Proof.
  intros p Hp. unfold nonnegative.
  apply elem_of_cons in Hp as [->|Hp]; [simpl; lra|].
  apply elem_of_cons in Hp as [->|Hp]; [simpl; lra|].
  by apply elem_of_nil in Hp.
Qed.



(** ** Geometry of the grid *)

Lemma Qfloor_unique (x : Q) (k : Z) :
  (inject_Z k <= x)%Q -> (x < inject_Z (k + 1))%Q -> Qfloor x = k.
Proof.
  intros Hle Hlt.
  pose proof (Qfloor_le x) as H1. pose proof (Qlt_floor x) as H2.
  assert (Ha : (inject_Z (Qfloor x) < inject_Z (k + 1))%Q) by lra.
  assert (Hb : (inject_Z k < inject_Z (Qfloor x + 1))%Q) by lra.
  rewrite <- Zlt_Qlt in Ha, Hb. lia.
Qed.

Lemma Qfloor_add_Z (x : Q) (n : Z) : Qfloor (x + inject_Z n) = Qfloor x + n.
Proof.
  pose proof (Qfloor_le x) as H1. pose proof (Qlt_floor x) as H2.
  apply Qfloor_unique; rewrite !inject_Z_plus in *; lra.
Qed.

Lemma Qfloor_minus_length (a sl : Q) :
  (0 < sl)%Q -> Qfloor ((a - sl) / sl) = Qfloor (a / sl) - 1.
Proof.
  intros Hsl. change (Qfloor (a / sl) - 1) with (Qfloor (a / sl) + -1).
  rewrite <- (Qfloor_add_Z (a / sl) (-1)). apply Qfloor_comp.
  change (inject_Z (-1)) with (-1)%Q. field. lra.
Qed.

Lemma Qfloor_plus_length (a sl : Q) :
  (0 < sl)%Q -> Qfloor ((a + sl) / sl) = Qfloor (a / sl) + 1.
Proof.
  intros Hsl. rewrite <- (Qfloor_add_Z (a / sl) 1). apply Qfloor_comp.
  change (inject_Z 1) with 1%Q. field. lra.
Qed.

Lemma axis_offset_floor (sl a : Q) (o : Z) :
  (0 < sl)%Q -> 0 <= o <= 2 -> axis_offset sl a o = Qfloor (a / sl) + o - 1.
Proof.
  intros Hsl Ho. unfold axis_offset.
  destruct (o =? 0) eqn:E0; [rewrite Qfloor_minus_length by done; lia|].
  destruct (o =? 1) eqn:E1; [lia|].
  rewrite Qfloor_plus_length by done. lia.
Qed.

Lemma subcells_id_3d_offsets (sl : Q) (p : pos) (ox oy oz : Z) :
  0 <= ox <= 2 -> 0 <= oy <= 2 -> 0 <= oz <= 2 ->
  subcells_id_3d sl p (9 * ox + 3 * oy + oz)
  = (axis_offset sl (px p) ox, axis_offset sl (py p) oy, axis_offset sl (pz p) oz).
Proof.
  intros Hx Hy Hz.
  assert (Ex : ox = 0 \/ ox = 1 \/ ox = 2) by lia.
  assert (Ey : oy = 0 \/ oy = 1 \/ oy = 2) by lia.
  assert (Ez : oz = 0 \/ oz = 1 \/ oz = 2) by lia.
  destruct Ex as [-> | [-> | ->]]; destruct Ey as [-> | [-> | ->]];
    destruct Ez as [-> | [-> | ->]]; reflexivity.
Qed.

Lemma wrap_coordinate_offset (m c o : Z) :
  0 <= c <= m - 1 -> 0 <= o <= 2 ->
  wrap_coordinate m (c + o - 1) =
    if decide (c + o - 1 < 0) then m - 1
    else if decide (c + o - 1 > m - 1) then 0 else c + o - 1.
Proof.
  intros Hc Ho. unfold wrap_coordinate.
  destruct (c + o - 1 <? 0) eqn:E1.
  - rewrite decide_True by lia. destruct (m - 1 >? m - 1) eqn:E2; lia.
  - rewrite decide_False by lia. destruct (c + o - 1 >? m - 1) eqn:E2.
    + by rewrite decide_True by lia.
    + by rewrite decide_False by lia.
Qed.

Lemma wrap_coordinate_inj (m c o o' : Z) :
  3 <= m -> 0 <= c <= m - 1 -> 0 <= o <= 2 -> 0 <= o' <= 2 ->
  wrap_coordinate m (c + o - 1) = wrap_coordinate m (c + o' - 1) -> o = o'.
Proof.
  intros Hm Hc Ho Ho'. rewrite !wrap_coordinate_offset by done.
  repeat case_decide; lia.
Qed.

Lemma wrap_coordinate_cover (m c c' : Z) :
  1 <= m -> 0 <= c <= m - 1 -> 0 <= c' <= m - 1 ->
  -1 <= c' - c <= 1 \/ (c = 0 /\ c' = m - 1) \/ (c = m - 1 /\ c' = 0) ->
  exists o, 0 <= o <= 2 /\ wrap_coordinate m (c + o - 1) = c'.
Proof.
  intros Hm Hc Hc' [H|[[-> ->]|[-> ->]]].
  - exists (c' - c + 1). split; [lia|]. rewrite wrap_coordinate_offset by lia.
    repeat case_decide; lia.
  - exists 0. split; [lia|]. rewrite wrap_coordinate_offset by lia.
    repeat case_decide; lia.
  - exists 2. split; [lia|]. rewrite wrap_coordinate_offset by lia.
    repeat case_decide; lia.
Qed.

Lemma linear_id_inj (m a b c a' b' c' : Z) :
  0 <= a <= m - 1 -> 0 <= b <= m - 1 -> 0 <= c <= m - 1 ->
  0 <= a' <= m - 1 -> 0 <= b' <= m - 1 -> 0 <= c' <= m - 1 ->
  a + b * m + c * m ^ 2 = a' + b' * m + c' * m ^ 2 ->
  a = a' /\ b = b' /\ c = c'.
Proof.
  intros Ha Hb Hc Ha' Hb' Hc' E.
  replace (m ^ 2) with (m * m) in E by ring.
  assert (Hm : 0 < m) by lia.
  assert (Ea : a = a').
  { assert (E1 : (a + (b + c * m) * m) mod m = (a' + (b' + c' * m) * m) mod m)
      by (f_equal; lia).
    rewrite !Z.mod_add in E1 by lia. rewrite !Z.mod_small in E1 by lia. done. }
  subst a'. assert (E2 : b + c * m = b' + c' * m) by nia.
  assert (Eb : b = b').
  { assert (E3 : (b + c * m) mod m = (b' + c' * m) mod m) by (f_equal; lia).
    rewrite !Z.mod_add in E3 by lia. rewrite !Z.mod_small in E3 by lia. done. }
  subst b'. split; [done|]. split; [done|]. nia.
Qed.

Lemma neighbour_subcell_offsets (m : Z) (sl : Q) (p : pos) (ox oy oz : Z) :
  (0 < sl)%Q -> 0 <= ox <= 2 -> 0 <= oy <= 2 -> 0 <= oz <= 2 ->
  neighbour_subcell m sl p (9 * ox + 3 * oy + oz)
  = wrap_coordinate m (Qfloor (px p / sl) + ox - 1)
    + wrap_coordinate m (Qfloor (py p / sl) + oy - 1) * m
    + wrap_coordinate m (Qfloor (pz p / sl) + oz - 1) * m ^ 2.
Proof.
  intros Hsl Hx Hy Hz. unfold neighbour_subcell.
  rewrite subcells_id_3d_offsets by done.
  by rewrite !axis_offset_floor by done.
Qed.

Lemma range_27_offsets (cell : Z) :
  cell ∈ range 27 ->
  exists ox oy oz, 0 <= ox <= 2 /\ 0 <= oy <= 2 /\ 0 <= oz <= 2 /\
                   cell = 9 * ox + 3 * oy + oz.
Proof.
  intros H. apply elem_of_range in H.
  exists (cell / 9), (cell / 3 mod 3), (cell mod 3).
  Z.div_mod_to_equations. lia.
Qed.

Lemma range_NoDup (n : Z) : NoDup (range n).
Proof.
  unfold range. apply NoDup_fmap_2; [apply _|]. apply NoDup_ListNoDup, List.seq_NoDup.
Qed.

Lemma stencil_NoDup (m : Z) (sl : Q) (p : pos) :
  3 <= m -> (0 < sl)%Q -> in_grid m sl p ->
  NoDup (_get_neighbours_subcells m sl p).
Proof.
  intros Hm Hsl (Hx & Hy & Hz). unfold _get_neighbours_subcells.
  apply NoDup_fmap_2_strong; [|apply range_NoDup].
  intros cell cell' Hc Hc' E.
  apply range_27_offsets in Hc as (ox & oy & oz & Hox & Hoy & Hoz & ->).
  apply range_27_offsets in Hc' as (ox' & oy' & oz' & Hox' & Hoy' & Hoz' & ->).
  rewrite !neighbour_subcell_offsets in E by done.
  apply linear_id_inj in E as (Ex & Ey & Ez); try (apply wrap_coordinate_range; lia).
  apply wrap_coordinate_inj in Ex; [|done..].
  apply wrap_coordinate_inj in Ey; [|done..].
  apply wrap_coordinate_inj in Ez; [|done..].
  by subst.
Qed.

Lemma stencil_cover (m : Z) (sl : Q) (p q : pos) :
  1 <= m -> (0 < sl)%Q -> in_grid m sl p -> in_grid m sl q ->
  adjacent m (Qfloor (px p / sl)) (Qfloor (px q / sl)) ->
  adjacent m (Qfloor (py p / sl)) (Qfloor (py q / sl)) ->
  adjacent m (Qfloor (pz p / sl)) (Qfloor (pz q / sl)) ->
  Qfloor (px q / sl) + Qfloor (py q / sl) * m + Qfloor (pz q / sl) * m ^ 2
    ∈ _get_neighbours_subcells m sl p.
Proof.
  intros Hm Hsl (Hx & Hy & Hz) (Hx' & Hy' & Hz') Ax Ay Az.
  destruct (wrap_coordinate_cover m _ _ Hm Hx Hx' Ax) as (ox & Hox & Ex).
  destruct (wrap_coordinate_cover m _ _ Hm Hy Hy' Ay) as (oy & Hoy & Ey).
  destruct (wrap_coordinate_cover m _ _ Hm Hz Hz' Az) as (oz & Hoz & Ez).
  unfold _get_neighbours_subcells. apply list_elem_of_fmap.
  exists (9 * ox + 3 * oy + oz). split; [|apply elem_of_range; lia].
  rewrite neighbour_subcell_offsets by done. by rewrite Ex, Ey, Ez.
Qed.

Lemma _find_subcell_in_grid (m : Z) (sl : Q) (p : pos) :
  in_grid m sl p ->
  _find_subcell m sl p
    = Ok (Qfloor (px p / sl) + Qfloor (py p / sl) * m + Qfloor (pz p / sl) * m ^ 2).
Proof.
  intros (Hx & Hy & Hz). unfold _find_subcell.
  destruct (Qfloor (px p / sl) <? 0) eqn:Ex; [lia|].
  destruct (Qfloor (py p / sl) <? 0) eqn:Ey; [lia|].
  destruct (Qfloor (pz p / sl) <? 0) eqn:Ez; [lia|]. done.
Qed.

Section Grid.
Variables (box sl cutoff_radius : Q) (m : Z).
Hypothesis Hm : 1 <= m.
Hypothesis Hsl : (0 < sl)%Q.
Hypothesis Hbox : (sl * inject_Z m == box)%Q.

Lemma axis_quotient (a : Q) : (a == a / sl * sl)%Q.
Proof. field. lra. Qed.

Lemma axis_cell_range (a : Q) : (0 <= a < box)%Q -> 0 <= Qfloor (a / sl) <= m - 1.
Proof.
  intros [Ha Hb]. pose proof (axis_quotient a) as Ea.
  pose proof (Qfloor_le (a / sl)) as H1. pose proof (Qlt_floor (a / sl)) as H2.
  assert (H0 : (0 <= a / sl)%Q) by (apply Qle_shift_div_l; lra).
  assert (HM : (a / sl < inject_Z m)%Q).
  { apply Qlt_shift_div_r; [done|]. lra. }
  split.
  - by apply Qfloor_nonneg.
  - assert (Hlt : (inject_Z (Qfloor (a / sl)) < inject_Z m)%Q) by lra.
    rewrite <- Zlt_Qlt in Hlt. lia.
Qed.

Lemma in_box_in_grid (p : pos) : in_box box p -> in_grid m sl p.
Proof. intros (Hx & Hy & Hz). repeat split; by apply axis_cell_range. Qed.

Lemma axis_adjacent_ordered (a b : Q) :
  (0 <= a < box)%Q -> (0 <= b < box)%Q -> (a <= b)%Q ->
  (b - a <= sl \/ box - (b - a) <= sl)%Q ->
  adjacent m (Qfloor (a / sl)) (Qfloor (b / sl)) /\
  adjacent m (Qfloor (b / sl)) (Qfloor (a / sl)).
Proof.
  intros Ha Hb Hab Hd.
  pose proof (axis_cell_range a Ha) as Ca. pose proof (axis_cell_range b Hb) as Cb.
  pose proof (Qfloor_le (a / sl)) as A1. pose proof (Qlt_floor (a / sl)) as A2.
  pose proof (Qfloor_le (b / sl)) as B1. pose proof (Qlt_floor (b / sl)) as B2.
  set (x := (a / sl)%Q) in *. set (y := (b / sl)%Q) in *.
  set (c := Qfloor x) in *. set (c' := Qfloor y) in *.
  assert (Exy : ((b - a) / sl == y - x)%Q) by (unfold x, y; field; lra).
  assert (Hxy : (0 <= y - x)%Q).
  { rewrite <- Exy. apply Qle_shift_div_l; [done|]. lra. }
  rewrite inject_Z_plus in A2, B2. change (inject_Z 1) with 1%Q in A2, B2.
  assert (Hlow : c <= c').
  { assert (H : (inject_Z c < inject_Z (c' + 1))%Q)
      by (rewrite inject_Z_plus; change (inject_Z 1) with 1%Q; lra).
    rewrite <- Zlt_Qlt in H. lia. }
  destruct Hd as [Hd|Hd].
  - assert (Hle : (y - x <= 1)%Q).
    { rewrite <- Exy. apply Qle_shift_div_r; [done|]. lra. }
    assert (H : (inject_Z c' < inject_Z (c + 2))%Q)
      by (rewrite inject_Z_plus; change (inject_Z 2) with 2%Q; lra).
    rewrite <- Zlt_Qlt in H. unfold adjacent. lia.
  - assert (Hge : (inject_Z m - 1 <= y - x)%Q).
    { rewrite <- Exy. apply Qle_shift_div_l; [done|]. lra. }
    assert (HyM : (y < inject_Z m)%Q).
    { unfold y. apply Qlt_shift_div_r; [done|]. lra. }
    assert (H0x : (0 <= x)%Q) by (unfold x; apply Qle_shift_div_l; lra).
    assert (H1 : (inject_Z m < inject_Z (c' + 2))%Q).
    { rewrite inject_Z_plus. change (inject_Z 2) with 2%Q. lra. }
    assert (H2 : (inject_Z c < inject_Z 1)%Q) by (change (inject_Z 1) with 1%Q; lra).
    rewrite <- Zlt_Qlt in H1, H2. unfold adjacent. lia.
Qed.

Lemma axis_adjacent (a b : Q) :
  (0 <= a < box)%Q -> (0 <= b < box)%Q ->
  (minimum_image_axis box a b <= sl)%Q ->
  adjacent m (Qfloor (a / sl)) (Qfloor (b / sl)).
Proof.
  intros Ha Hb. unfold minimum_image_axis. intros Hmin.
  destruct (Qlt_le_dec b a) as [Hlt|Hle].
  - assert (Ed : (Qabs (a - b) == a - b)%Q) by (apply Qabs_pos; lra).
    rewrite Ed in Hmin.
    apply (axis_adjacent_ordered b a Hb Ha); [lra|].
    destruct (Q.min_spec (a - b) (box - (a - b))) as [[_ E]|[_ E]];
      rewrite E in Hmin; [by left|by right].
  - assert (Ed : (Qabs (a - b) == b - a)%Q).
    { rewrite Qabs_neg by lra. ring. }
    rewrite Ed in Hmin.
    apply (axis_adjacent_ordered a b Ha Hb); [lra|].
    destruct (Q.min_spec (b - a) (box - (b - a))) as [[_ E]|[_ E]];
      rewrite E in Hmin; [by left|by right].
Qed.

Hypothesis Hcut : (cutoff_radius <= sl)%Q.
Hypothesis Hgrid : 4 <= m \/ (3 <= m /\ (cutoff_radius < sl)%Q).

Lemma box_lower_bound : (4 * sl <= box \/ (3 * sl <= box /\ cutoff_radius < sl))%Q.
Proof.
  destruct Hgrid as [H4|[H3 Hc]].
  - left. rewrite <- Hbox. assert (H : (inject_Z 4 <= inject_Z m)%Q) by (by rewrite <- Zle_Qle).
    change (inject_Z 4) with 4%Q in H. rewrite (Qmult_comm 4 sl).
    apply Qmult_le_l; done.
  - right. split; [|done]. rewrite <- Hbox.
    assert (H : (inject_Z 3 <= inject_Z m)%Q) by (by rewrite <- Zle_Qle).
    change (inject_Z 3) with 3%Q in H. rewrite (Qmult_comm 3 sl).
    apply Qmult_le_l; done.
Qed.

(** Within the cutoff the corrected axis distance of the code is the
    minimum-image axis distance. *)
Lemma correct_distance_minimum_image (a b : Q) :
  (minimum_image_axis box a b <= cutoff_radius)%Q ->
  correct_distance box (2 * sl) (Qabs (a - b)) = minimum_image_axis box a b.
Proof.
  unfold minimum_image_axis, correct_distance. set (d := Qabs (a - b)).
  assert (Hd : (0 <= d)%Q) by apply Qabs_nonneg.
  intros Hmin. pose proof box_lower_bound as Hb.
  unfold Qmin, GenericMinMax.gmin in *.
  destruct (d ?= box - d)%Q eqn:E.
  - apply Qeq_alt in E. rewrite (proj2 (Qltb_ge _ _)); [done|]. lra.
  - apply Qlt_alt in E. rewrite (proj2 (Qltb_ge _ _)); [done|]. lra.
  - apply Qgt_alt in E. rewrite (proj2 (Qltb_lt _ _)); [done|]. lra.
Qed.
End Grid.

(** ** Lists of lists *)

Lemma filter_nil_intro {A : Type} (P : A -> Prop) `{forall a, Decision (P a)} (l : list A) :
  (forall a, a ∈ l -> ~ P a) -> filter P l = [].
Proof.
  induction l as [|a l IH]; intros Hl; [done|].
  rewrite filter_cons. rewrite decide_False by (apply Hl; by left).
  apply IH. intros b Hb. apply Hl. by right.
Qed.

Lemma filter_concat_map_nil {A B : Type} (P : B -> Prop) `{forall b, Decision (P b)}
    (f : A -> list B) (l : list A) :
  (forall x, x ∈ l -> filter P (f x) = []) -> filter P (concat (map f l)) = [].
Proof.
  induction l as [|x l IH]; intros Hl; simpl; [done|].
  rewrite filter_app, Hl by (by left). simpl.
  apply IH. intros y Hy. apply Hl. by right.
Qed.

Lemma filter_concat_map_single {A B : Type} (P : B -> Prop) `{forall b, Decision (P b)}
    (f : A -> list B) (l : list A) (a : A) :
  NoDup l -> a ∈ l -> (forall x, x ∈ l -> x <> a -> filter P (f x) = []) ->
  filter P (concat (map f l)) = filter P (f a).
Proof.
  induction l as [|x l IH]; intros Hnd Ha Hl; [by apply elem_of_nil in Ha|].
  apply NoDup_cons in Hnd as [Hx Hnd]. simpl. rewrite filter_app.
  apply elem_of_cons in Ha as [->|Ha].
  - rewrite filter_concat_map_nil; [by rewrite app_nil_r|].
    intros y Hy. apply Hl; [by right|]. intros ->. done.
  - rewrite Hl; [|by left|intros ->; done]. simpl.
    apply IH; [done..|]. intros y Hy. apply Hl. by right.
Qed.

Lemma NoDup_concat_map {A B : Type} (f : A -> list B) (l : list A) :
  NoDup l -> (forall x, x ∈ l -> NoDup (f x)) ->
  (forall x y b, x ∈ l -> y ∈ l -> b ∈ f x -> b ∈ f y -> x = y) ->
  NoDup (concat (map f l)).
Proof.
  induction l as [|x l IH]; intros Hnd Hf Hdisj; simpl; [constructor|].
  apply NoDup_cons in Hnd as [Hx Hnd]. apply NoDup_app. split; [|split].
  - apply Hf. by left.
  - intros b Hb Hb'. apply elem_of_concat_map in Hb' as (y & Hy & Hby).
    assert (x = y) by (apply (Hdisj x y b); [by left|by right|done..]).
    by subst.
  - apply IH; [done| |].
    + intros y Hy. apply Hf. by right.
    + intros y z b Hy Hz. apply Hdisj; by right.
Qed.

(** ** What the pairs of a particle are *)

Lemma elem_of_kept (self : Neighbours) (i : Z) (p : pos) (j : Z) (e : Z * npfloat) :
  e ∈ kept self i p j <->
  i < j /\ exists q, positions self !! Z.to_nat j = Some q /\
    e = (j, distance_to (_box_length self) (_subcell_length self) p q) /\
    Q_lt_np 0 e.2 && np_le_Q e.2 (cutoff (info self)) = true.
Proof.
  unfold kept. destruct (j >? i) eqn:E.
  - destruct (positions self !! Z.to_nat j) as [q|].
    + cbv zeta.
      destruct (Q_lt_np 0 (distance_to (_box_length self) (_subcell_length self) p q) && _)
        eqn:Et.
      * rewrite list_elem_of_singleton. split.
        -- intros ->. split; [lia|]. by exists q.
        -- by intros (_ & q' & [= <-] & -> & _).
      * split; [intros H; by apply elem_of_nil in H|].
        intros (_ & q' & [= <-] & -> & Ht). cbn [snd] in Ht. congruence.
    + split; [intros H; by apply elem_of_nil in H|]. by intros (_ & q' & ? & _).
  - split; [intros H; by apply elem_of_nil in H|]. intros [? _]. lia.
Qed.

Lemma keep_neighbours_cons (self : Neighbours) (i : Z) (p : pos) (index : Z)
    (rest : list Z) :
  keep_neighbours self i p (index :: rest) =
    if index >? i then
      let? q := py_index (positions self) index in
      let distance := distance_to (_box_length self) (_subcell_length self) p q in
      let? r := keep_neighbours self i p rest in
      if Q_lt_np 0 distance && np_le_Q distance (cutoff (info self))
      then Ok (index :: r.1, distance :: r.2)
      else Ok r
    else keep_neighbours self i p rest.
Proof. reflexivity. Qed.

Lemma elem_of_keep_neighbours (self : Neighbours) (i : Z) (p : pos) (l : list Z)
    (nb : list Z * list npfloat) (e : Z * npfloat) :
  keep_neighbours self i p l = Ok nb -> e ∈ zip nb.1 nb.2 ->
  i < e.1 /\ Q_lt_np 0 e.2 && np_le_Q e.2 (cutoff (info self)) = true.
Proof.
  revert nb. induction l as [|index l IH]; intros nb.
  - intros [= <-] H. by apply elem_of_nil in H.
  - rewrite keep_neighbours_cons. destruct (index >? i) eqn:E; [|by apply IH].
    destruct (py_index (positions self) index) as [q| |]; [|done..].
    unfold rbind at 1. cbv zeta.
    set (dist := distance_to (_box_length self) (_subcell_length self) p q).
    destruct (keep_neighbours self i p l) as [r| |]; [|done..].
    unfold rbind.
    destruct (Q_lt_np 0 dist && np_le_Q dist (cutoff (info self))) eqn:Et;
      [|by apply IH].
    intros [= <-]. cbn [fst snd]. intros He. apply elem_of_cons in He as [->|He].
    + cbn [fst snd]. split; [lia|done].
    + by apply (IH r).
Qed.

(** Only larger ids are kept, and only at a distance in (0, cutoff]. *)
Lemma pairs_sound (self : Neighbours) (i j : Z) (d : npfloat) :
  (j, d) ∈ pairs self i ->
  i < j /\ Q_lt_np 0 d && np_le_Q d (cutoff (info self)) = true.
Proof.
  unfold pairs. destruct (_neighbours_for_one self i) as [nb| |] eqn:E;
    [|intros H; by apply elem_of_nil in H..].
  destruct (_neighbours_for_one_Ok _ _ _ E) as (p & l & _ & _ & Hk).
  intros H. apply (elem_of_keep_neighbours _ _ _ _ _ _ Hk H).
Qed.

Lemma kept_test_Q (q c : Q) :
  Q_lt_np 0 (Sqrt q) && np_le_Q (Sqrt q) c = true <->
  (0 < q)%Q /\ (0 <= c)%Q /\ (q <= c * c)%Q.
Proof.
  unfold Q_lt_np, np_le_Q. rewrite !andb_true_iff, orb_true_iff, !Qltb_lt, !Qle_bool_iff.
  split.
  - intros [[H|H] [Hc Hq]]; [lra|]. split; [lra|done].
  - intros (Hq & Hc & Hqc). split; [right; lra|done].
Qed.

Lemma minimum_image_axis_nonneg (box a b : Q) :
  (0 <= a < box)%Q -> (0 <= b < box)%Q -> (0 <= minimum_image_axis box a b)%Q.
Proof.
  intros Ha Hb. unfold minimum_image_axis.
  assert (Hd : (0 <= Qabs (a - b))%Q) by apply Qabs_nonneg.
  assert (Hlt : (Qabs (a - b) < box)%Q).
  { apply Qabs_case; intros; lra. }
  apply Q.min_glb; lra.
Qed.

Lemma sum_of_squares_bound (x y z c : Q) :
  (0 <= x)%Q -> (0 <= y)%Q -> (0 <= z)%Q -> (0 <= c)%Q ->
  (x * x + y * y + z * z <= c * c)%Q -> (x <= c /\ y <= c /\ z <= c)%Q.
Proof. intros Hx Hy Hz Hc H. repeat split; nra. Qed.

Section Complete.
Variable self : Neighbours.
Hypothesis Hwl : well_linked self.
Hypothesis Hsl : (0 < _subcell_length self)%Q.
Hypothesis Hbox :
  (_subcell_length self * inject_Z (_subcells_inrow self) == _box_length self)%Q.
Hypothesis Hcut : (cutoff (info self) <= _subcell_length self)%Q.
Hypothesis Hgrid :
  4 <= _subcells_inrow self \/
  (3 <= _subcells_inrow self /\ (cutoff (info self) < _subcell_length self)%Q).
Hypothesis Hin : forall p, p ∈ positions self -> in_box (_box_length self) p.

Lemma subcells_inrow_3 : 3 <= _subcells_inrow self.
Proof. destruct Hgrid as [?|[? _]]; lia. Qed.

Lemma within_cutoff_axes (p q : pos) :
  in_box (_box_length self) p -> in_box (_box_length self) q ->
  Q_lt_np 0 (minimum_image_distance (_box_length self) p q)
    && np_le_Q (minimum_image_distance (_box_length self) p q) (cutoff (info self)) = true ->
  (minimum_image_axis (_box_length self) (px p) (px q) <= cutoff (info self))%Q /\
  (minimum_image_axis (_box_length self) (py p) (py q) <= cutoff (info self))%Q /\
  (minimum_image_axis (_box_length self) (pz p) (pz q) <= cutoff (info self))%Q.
Proof.
  intros (Hpx & Hpy & Hpz) (Hqx & Hqy & Hqz) Ht.
  unfold minimum_image_distance, norm in Ht. apply kept_test_Q in Ht as (_ & Hc & Hs).
  pose proof (minimum_image_axis_nonneg _ _ _ Hpx Hqx) as Hx.
  pose proof (minimum_image_axis_nonneg _ _ _ Hpy Hqy) as Hy.
  pose proof (minimum_image_axis_nonneg _ _ _ Hpz Hqz) as Hz.
  by apply sum_of_squares_bound.
Qed.

(** Within the cutoff the distance the code computes is the
    minimum-image distance. *)
Lemma distance_to_minimum_image (p q : pos) :
  in_box (_box_length self) p -> in_box (_box_length self) q ->
  Q_lt_np 0 (minimum_image_distance (_box_length self) p q)
    && np_le_Q (minimum_image_distance (_box_length self) p q) (cutoff (info self)) = true ->
  distance_to (_box_length self) (_subcell_length self) p q
    = minimum_image_distance (_box_length self) p q.
Proof.
  intros Hp Hq Ht. destruct (within_cutoff_axes p q Hp Hq Ht) as (Hx & Hy & Hz).
  destruct Hwl as [Hm _].
  unfold distance_to, minimum_image_distance.
  by rewrite !(correct_distance_minimum_image _ _ (cutoff (info self))
                 (_subcells_inrow self) Hsl Hbox Hcut Hgrid) by done.
Qed.

Lemma candidates_NoDup (p : pos) :
  in_box (_box_length self) p -> NoDup (candidates self p).
Proof.
  intros Hp. destruct Hwl as [Hm _]. unfold candidates. apply NoDup_concat_map.
  - apply stencil_NoDup; [apply subcells_inrow_3|done|].
    by apply (in_box_in_grid (_box_length self)).
  - intros c _. apply chain_upto_NoDup.
  - intros c c' k _ _ Hk Hk'.
    apply elem_of_chain_upto in Hk as (i & r & -> & _ & Hr & Hc).
    apply elem_of_chain_upto in Hk' as (i' & r' & Ei & _ & Hr' & Hc').
    assert (i' = i) as -> by lia. congruence.
Qed.

Lemma candidates_cover (p q : pos) (j : nat) :
  in_box (_box_length self) p -> positions self !! j = Some q ->
  (minimum_image_axis (_box_length self) (px p) (px q) <= cutoff (info self))%Q ->
  (minimum_image_axis (_box_length self) (py p) (py q) <= cutoff (info self))%Q ->
  (minimum_image_axis (_box_length self) (pz p) (pz q) <= cutoff (info self))%Q ->
  Z.of_nat j ∈ candidates self p.
Proof.
  intros Hp Hj Hx Hy Hz. destruct Hwl as [Hm _].
  assert (Hq : in_box (_box_length self) q)
    by (apply Hin; by apply list_elem_of_lookup_2 in Hj).
  assert (Gp : in_grid (_subcells_inrow self) (_subcell_length self) p)
    by (by apply (in_box_in_grid (_box_length self))).
  assert (Gq : in_grid (_subcells_inrow self) (_subcell_length self) q)
    by (by apply (in_box_in_grid (_box_length self))).
  destruct Hp as (Hpx & Hpy & Hpz). destruct Hq as (Hqx & Hqy & Hqz).
  unfold candidates. apply elem_of_concat_map.
  exists (Qfloor (px q / _subcell_length self)
          + Qfloor (py q / _subcell_length self) * _subcells_inrow self
          + Qfloor (pz q / _subcell_length self) * _subcells_inrow self ^ 2).
  split.
  - apply stencil_cover; try done.
    + apply (axis_adjacent (_box_length self)); try done. lra.
    + apply (axis_adjacent (_box_length self)); try done. lra.
    + apply (axis_adjacent (_box_length self)); try done. lra.
  - apply elem_of_chain_upto. exists j, q. split; [done|].
    split; [by apply lookup_lt_Some in Hj|]. split; [done|].
    by apply _find_subcell_in_grid.
Qed.

(** A particle [j > i] within the cutoff of [i] is kept exactly once by
    the search of [i], with the minimum-image distance. *)
Lemma pairs_complete (i j : nat) (p q : pos) :
  positions self !! i = Some p -> positions self !! j = Some q -> (i < j)%nat ->
  Q_lt_np 0 (minimum_image_distance (_box_length self) p q)
    && np_le_Q (minimum_image_distance (_box_length self) p q) (cutoff (info self)) = true ->
  filter (fun e => e.1 = Z.of_nat j) (pairs self (Z.of_nat i))
    = [(Z.of_nat j, minimum_image_distance (_box_length self) p q)].
Proof.
  intros Hi Hj Hij Ht.
  assert (Hp : in_box (_box_length self) p)
    by (apply Hin; by apply list_elem_of_lookup_2 in Hi).
  assert (Hq : in_box (_box_length self) q)
    by (apply Hin; by apply list_elem_of_lookup_2 in Hj).
  destruct (within_cutoff_axes p q Hp Hq Ht) as (Hx & Hy & Hz).
  rewrite (pairs_spec self i p Hwl Hi).
  rewrite (filter_concat_map_single _ _ _ (Z.of_nat j)).
  - unfold kept. rewrite (proj2 (Z.gtb_lt _ _)) by lia.
    rewrite Nat2Z.id, Hj. cbv zeta.
    rewrite (distance_to_minimum_image p q Hp Hq Ht), Ht.
    rewrite filter_cons. by rewrite decide_True.
  - by apply candidates_NoDup.
  - by apply (candidates_cover p q j).
  - intros x _ Hx'. apply filter_nil_intro. intros e He.
    apply elem_of_kept in He as (_ & r & _ & -> & _). done.
Qed.
End Complete.

Lemma Q2R_0 : Q2R 0 = 0%R.
Proof. unfold Q2R. simpl. Lra.lra. Qed.

(** The two tests of the filtering loop, read in the real numbers. *)
Lemma kept_test_real (d : npfloat) (c : Q) :
  Q_lt_np 0 d && np_le_Q d c = true -> (0 < np_value d <= Q2R c)%R.
Proof.
  destruct d as [q|]; [|done].
  intros H. apply kept_test_Q in H as (Hq & Hc & Hqc). simpl.
  apply Qlt_Rlt in Hq. apply Qle_Rle in Hc, Hqc.
  rewrite Q2R_mult in Hqc. rewrite Q2R_0 in *.
  split; [by apply sqrt_lt_R0|].
  rewrite <- (sqrt_square (Q2R c)) by done. by apply sqrt_le_1_alt.
Qed.

Lemma real_kept_test (q c : Q) :
  (0 <= q)%Q -> (0 < np_value (Sqrt q) <= Q2R c)%R ->
  Q_lt_np 0 (Sqrt q) && np_le_Q (Sqrt q) c = true.
Proof.
  intros Hq [Hpos Hle]. simpl in *. apply kept_test_Q.
  apply Qle_Rle in Hq. rewrite Q2R_0 in Hq.
  assert (Hq' : (0 < Q2R q)%R).
  { destruct (Rle_lt_or_eq_dec _ _ Hq) as [H|H]; [done|].
    rewrite <- H, sqrt_0 in Hpos. Lra.lra. }
  split; [|split].
  - apply Rlt_Qlt. by rewrite Q2R_0.
  - apply Rle_Qle. rewrite Q2R_0. Lra.lra.
  - apply Rle_Qle. rewrite Q2R_mult. rewrite <- (sqrt_sqrt (Q2R q)) by done.
    apply Rmult_le_compat; Lra.lra.
Qed.

Lemma filter_id_intro {A : Type} (P : A -> Prop) `{forall a, Decision (P a)} (l : list A) :
  (forall a, a ∈ l -> P a) -> filter P l = l.
Proof.
  induction l as [|a l IH]; intros Hl; [done|].
  rewrite filter_cons. rewrite decide_True by (apply Hl; by left).
  f_equal. apply IH. intros b Hb. apply Hl. by right.
Qed.

Section Frame.
Variables (self : Neighbours) (fr : frame) (N : Z).
Hypothesis Hent : forall k, entries fr k = concat (map (contribution self k) (range N)).

Lemma entries_of_smaller (i j : Z) :
  0 <= i < N -> i < j ->
  filter (fun e => e.1 = j) (entries fr i) = filter (fun e => e.1 = j) (pairs self i).
Proof.
  intros Hi Hij. rewrite Hent.
  rewrite (filter_concat_map_single _ _ _ i);
    [|apply range_NoDup|by apply elem_of_range|].
  - unfold contribution. rewrite decide_True by done. rewrite filter_app.
    rewrite (filter_nil_intro _ (mirrored i i _)); [by rewrite app_nil_r|].
    intros [e1 e2] He. apply elem_of_mirrored in He as [-> _]. simpl. lia.
  - intros x _ Hx. apply filter_nil_intro. intros [e1 e2] He. simpl.
    apply elem_of_contribution in He as [[? _]|[-> He]]; [done|].
    apply pairs_sound in He as [He _]. lia.
Qed.

Lemma entries_of_larger (i j : Z) :
  0 <= i < N -> i < j ->
  filter (fun e => e.1 = i) (entries fr j)
    = map (fun e => (i, e.2)) (filter (fun e => e.1 = j) (pairs self i)).
Proof.
  intros Hi Hij. rewrite Hent.
  rewrite (filter_concat_map_single _ _ _ i);
    [|apply range_NoDup|by apply elem_of_range|].
  - unfold contribution. rewrite decide_False by lia. simpl.
    apply filter_id_intro. intros [e1 e2] He.
    by apply elem_of_mirrored in He as [-> _].
  - intros x _ Hx. apply filter_nil_intro. intros [e1 e2] He. simpl.
    apply elem_of_contribution in He as [[-> He]|[-> He]]; [|done].
    apply pairs_sound in He as [He _]. lia.
Qed.
End Frame.

Lemma constructed_entries (fuel : nat) (si : SystemInfo) (ps : list pos)
    (self : Neighbours) :
  constructed fuel si ps self ->
  (forall k, entries (get_frame self) k
             = concat (map (contribution self k) (range (num_particles si)))) /\
  (forall k, 0 <= k < num_particles si ->
             is_Some (_neighbours_frame_IDs self !! k)).
Proof.
  intros H.
  destruct (frame_loop_spec _ _ _ _ frame_wf_empty (built_frame _ _ _ _ H))
    as (_ & Hent & Hin & _).
  split.
  - intros k. rewrite Hent. unfold entries at 1. simpl. by rewrite lookup_empty.
  - intros k Hk. apply Hin. by apply elem_of_range.
Qed.

(** ** The contents of a rebuilt cache *)

Lemma sum_of_squares_nonneg (x y z : Q) : (0 <= x * x + y * y + z * z)%Q.
Proof. nra. Qed.


Lemma in_box_grid4_positions : forall p, p ∈ grid4_positions -> in_box 12 p.
Proof.
  intros p Hp. unfold in_box.
  apply elem_of_cons in Hp as [->|Hp]; [simpl; lra|].
  apply elem_of_cons in Hp as [->|Hp]; [simpl; lra|].
  by apply elem_of_nil in Hp.
Qed.



(** ** The periodic helpers *)

Lemma quotient_bounds (x L : Q) (n : Z) :
  (0 < L)%Q -> (inject_Z n <= x / L)%Q -> (x / L < inject_Z n + 1)%Q ->
  (inject_Z n * L <= x /\ x < inject_Z n * L + L)%Q.
Proof.
  intros HL Hle Hlt. assert (E : (x == x / L * L)%Q) by (field; lra).
  split.
  - rewrite E at 1. apply Qmult_le_compat_r; lra.
  - rewrite E at 1.
    assert (H : (x / L * L < (inject_Z n + 1) * L)%Q) by (apply Qmult_lt_compat_r; lra).
    lra.
Qed.

Lemma stay_in_box_range (L x : Q) : (0 < L)%Q -> (0 <= stay_in_box L x < L)%Q.
Proof.
  intros HL. unfold stay_in_box.
  pose proof (Qfloor_le (x / L)) as H1. pose proof (Qlt_floor (x / L)) as H2.
  rewrite inject_Z_plus in H2. change (inject_Z 1) with 1%Q in H2.
  destruct (quotient_bounds x L _ HL H1 H2). lra.
Qed.

Lemma stay_in_box_id (L x : Q) : (0 <= x < L)%Q -> (stay_in_box L x == x)%Q.
Proof.
  intros [H0 H1]. unfold stay_in_box.
  assert (E : Qfloor (x / L) = 0).
  { apply Qfloor_unique.
    - change (inject_Z 0) with 0%Q. apply Qle_shift_div_l; lra.
    - change (inject_Z (0 + 1)) with 1%Q. apply Qlt_shift_div_r; lra. }
  rewrite E. change (inject_Z 0) with 0%Q. lra.
Qed.

Lemma stay_in_box_shift (L x : Q) :
  exists k : Z, (stay_in_box L x == x + inject_Z k * L)%Q.
Proof.
  exists (- Qfloor (x / L)). unfold stay_in_box. rewrite inject_Z_opp. ring.
Qed.

(** What [np.around] returns: an integer within a half of its argument,
    the even one when there are two. *)
Lemma np_around_spec (x : Q) :
  (inject_Z (np_around x) - (1 # 2) <= x <= inject_Z (np_around x) + (1 # 2))%Q /\
  ((x == inject_Z (np_around x) - (1 # 2))%Q \/ (x == inject_Z (np_around x) + (1 # 2))%Q ->
   Z.even (np_around x) = true).
Proof.
  unfold np_around.
  pose proof (Qfloor_le x) as H1. pose proof (Qlt_floor x) as H2.
  rewrite inject_Z_plus in H2. change (inject_Z 1) with 1%Q in H2.
  destruct (Qltb (x - inject_Z (Qfloor x)) (1 # 2)) eqn:E1.
  - apply Qltb_lt in E1. split; [lra|]. intros [H|H]; lra.
  - apply Qltb_ge in E1.
    destruct (Qltb (1 # 2) (x - inject_Z (Qfloor x))) eqn:E2.
    + apply Qltb_lt in E2. rewrite inject_Z_plus. change (inject_Z 1) with 1%Q.
      split; [lra|]. intros [H|H]; lra.
    + apply Qltb_ge in E2. destruct (Z.even (Qfloor x)) eqn:E3.
      * split; [lra|]. done.
      * rewrite inject_Z_plus. change (inject_Z 1) with 1%Q. split; [lra|].
        intros _. rewrite Z.even_add, E3. done.
Qed.

Lemma wrap_corner_range (L d : Q) :
  (0 < L)%Q -> (- (L / 2) <= wrap_corner L d <= L / 2)%Q.
Proof.
  intros HL. unfold wrap_corner.
  destruct (np_around_spec (d / L)) as [[H1 H2] _].
  set (n := inject_Z (np_around (d / L))) in *.
  assert (E : (d == d / L * L)%Q) by (field; lra).
  assert (Ha : ((n - (1 # 2)) * L <= d / L * L)%Q) by (apply Qmult_le_compat_r; lra).
  assert (Hb : (d / L * L <= (n + (1 # 2)) * L)%Q) by (apply Qmult_le_compat_r; lra).
  assert (Eh : (L / 2 == (1 # 2) * L)%Q) by (field).
  rewrite Eh. lra.
Qed.

Lemma wrap_corner_shift (L d : Q) :
  exists k : Z, (wrap_corner L d == d + inject_Z k * L)%Q.
Proof.
  exists (- np_around (d / L)). unfold wrap_corner. rewrite inject_Z_opp. ring.
Qed.

Lemma np_around_unique (x : Q) (n : Z) :
  (inject_Z n - (1 # 2) < x < inject_Z n + (1 # 2))%Q -> np_around x = n.
Proof.
  intros [Hlo Hhi]. destruct (np_around_spec x) as [[H1 H2] _].
  assert (Ha : (inject_Z (np_around x) < inject_Z (n + 1))%Q)
    by (rewrite inject_Z_plus; change (inject_Z 1) with 1%Q; lra).
  assert (Hb : (inject_Z n < inject_Z (np_around x + 1))%Q)
    by (rewrite inject_Z_plus; change (inject_Z 1) with 1%Q; lra).
  rewrite <- Zlt_Qlt in Ha, Hb. lia.
Qed.

Lemma np_around_half (x : Q) :
  (x == 1 # 2)%Q \/ (x == - (1 # 2))%Q -> np_around x = 0.
Proof.
  intros Hx. destruct (np_around_spec x) as [[H1 H2] Heven].
  assert (Ha : (inject_Z (np_around x) < inject_Z 2)%Q)
    by (change (inject_Z 2) with 2%Q; destruct Hx; lra).
  assert (Hb : (inject_Z (-2) < inject_Z (np_around x))%Q)
    by (change (inject_Z (-2)) with (-2 # 1)%Q; destruct Hx; lra).
  rewrite <- Zlt_Qlt in Ha, Hb.
  assert (Hc : np_around x = -1 \/ np_around x = 0 \/ np_around x = 1) by lia.
  destruct Hc as [E|[E|E]]; [|done|]; rewrite E in Heven, H1, H2; exfalso.
  - change (inject_Z (-1)) with (-1 # 1)%Q in *.
    assert (Hev : Z.even (-1) = true).
    { apply Heven. destruct Hx as [Hx|Hx]; [lra|right; lra]. }
    done.
  - change (inject_Z 1) with 1%Q in *.
    assert (Hev : Z.even 1 = true).
    { apply Heven. destruct Hx as [Hx|Hx]; [left; lra|lra]. }
    done.
Qed.

(** For two coordinates of the box, the wrapped difference has the size of
    the minimum-image axis distance. *)
Lemma wrap_corner_minimum_image (L a b : Q) :
  (0 <= a < L)%Q -> (0 <= b < L)%Q ->
  (Qabs (wrap_corner L (a - b)) == minimum_image_axis L a b)%Q.
Proof.
  intros Ha Hb. assert (HL : (0 < L)%Q) by lra.
  unfold wrap_corner, minimum_image_axis.
  set (d := (a - b)%Q). assert (Hd : (- L < d < L)%Q) by (unfold d; lra).
  assert (E : (d == d / L * L)%Q) by (field; lra).
  set (y := (d / L)%Q) in *.
  assert (Eh : ((1 # 2) * L == L / 2)%Q) by field.
  destruct (Qlt_le_dec (1 # 2) y) as [Hy|Hy].
  - (* more than half a box apart, a above b *)
    assert (Hy1 : (y < 1)%Q) by (unfold y; apply Qlt_shift_div_r; lra).
    rewrite (np_around_unique y 1) by (change (inject_Z 1) with 1%Q; lra).
    change (inject_Z 1) with 1%Q.
    assert (Hm : ((1 # 2) * L < y * L)%Q) by (apply Qmult_lt_compat_r; lra).
    rewrite (Qabs_neg (d - 1 * L)) by lra. rewrite (Qabs_pos d) by lra.
    rewrite Q.min_r by lra. ring.
  - destruct (Qlt_le_dec y (- (1 # 2))) as [Hy'|Hy'].
    + assert (Hy1 : (-1 < y)%Q).
      { unfold y. apply Qlt_shift_div_l; lra. }
      rewrite (np_around_unique y (-1)) by (change (inject_Z (-1)) with (-1 # 1)%Q; lra).
      change (inject_Z (-1)) with (-1 # 1)%Q.
      assert (Hm : (y * L < - (1 # 2) * L)%Q) by (apply Qmult_lt_compat_r; lra).
      rewrite (Qabs_pos (d - (-1 # 1) * L)) by lra. rewrite (Qabs_neg d) by lra.
      rewrite Q.min_r by lra. ring.
    + assert (E0 : np_around y = 0).
      { destruct (Qeq_dec y (1 # 2)) as [E1|N1]; [apply np_around_half; by left|].
        destruct (Qeq_dec y (- (1 # 2))) as [E2|N2]; [apply np_around_half; by right|].
        apply np_around_unique. change (inject_Z 0) with 0%Q.
        split; apply Qnot_le_lt; intros Hc; [apply N2|apply N1]; lra. }
      rewrite E0. change (inject_Z 0) with 0%Q.
      assert (Hm1 : (y * L <= (1 # 2) * L)%Q) by (apply Qmult_le_compat_r; lra).
      assert (Hm2 : (- (1 # 2) * L <= y * L)%Q) by (apply Qmult_le_compat_r; lra).
      assert (Ez : (d - 0 * L == d)%Q) by ring. rewrite Ez.
      rewrite Q.min_l; [done|]. apply Qabs_case; intros; lra.
Qed.







(** X4.  Applied to the differences of positions of the box,
    [periodic_wrap_corner] gives the minimum image: on each axis the size
    of the wrapped difference is the shorter of the direct and the
    wrapped-around distance. *)
Theorem periodic_wrap_corner_minimum_image (ps qs : list pos) (L : Q) (i : nat)
    (p q : pos) :
  ps !! i = Some p -> qs !! i = Some q -> in_box L p -> in_box L q ->
  exists w, periodic_wrap_corner (zip_with pos_sub ps qs) L !! i = Some w /\
    (Qabs (px w) == minimum_image_axis L (px p) (px q))%Q /\
    (Qabs (py w) == minimum_image_axis L (py p) (py q))%Q /\
    (Qabs (pz w) == minimum_image_axis L (pz p) (pz q))%Q.
Proof.
  intros Hp Hq (Hpx & Hpy & Hpz) (Hqx & Hqy & Hqz).
  exists (map_pos (wrap_corner L) (pos_sub p q)). split.
  - unfold periodic_wrap_corner.
    change (map (map_pos (wrap_corner L)) (zip_with pos_sub ps qs))
      with (map_pos (wrap_corner L) <$> zip_with pos_sub ps qs).
    rewrite list_lookup_fmap.
    assert (E : zip_with pos_sub ps qs !! i = Some (pos_sub p q)).
    { apply lookup_zip_with_Some. by exists p, q. }
    by rewrite E.
  - repeat split; simpl; by apply wrap_corner_minimum_image.
Qed.

Lemma periodic_wrap_corner_minimum_image_witness :
  exists w,
    periodic_wrap_corner (zip_with pos_sub [mk_pos 0 0 0] [mk_pos 9 0 0]) 10 !! 0%nat
      = Some w /\
    (Qabs (px w) == minimum_image_axis 10 0 9)%Q /\
    (Qabs (py w) == minimum_image_axis 10 0 0)%Q /\
    (Qabs (pz w) == minimum_image_axis 10 0 0)%Q.
Proof.
  apply (periodic_wrap_corner_minimum_image [mk_pos 0 0 0] [mk_pos 9 0 0] 10 0
           (mk_pos 0 0 0) (mk_pos 9 0 0)); try reflexivity.
  - repeat split; simpl; lra.
  - repeat split; simpl; lra.
Defined.

(** ** The grid and the linked lists in closed form *)

Lemma Qceiling_le_Z (x : Q) (n : Z) : (x <= inject_Z n)%Q -> Qceiling x <= n.
Proof.
  intros H. rewrite <- (Qceiling_Z n). by apply Qceiling_resp_le.
Qed.

Lemma _create_subcells_loop_ceiling (skin box : Q) (fuel : nat) (m : Z) :
  (0 < skin)%Q -> (0 < box)%Q ->
  _create_subcells_loop fuel skin box 1 = Ok m -> m = Qceiling (box / skin).
Proof.
  intros Hs Hb H. destruct (_create_subcells_loop_Ok _ _ _ _ _ H) as (H1 & Hle & Hk).
  assert (Hpos : (0 < box / skin)%Q) by (apply Qlt_shift_div_l; lra).
  pose proof (Qceiling_pos _ Hpos) as Hc1.
  assert (Hexit : (box / inject_Z (Qceiling (box / skin)) <= skin)%Q)
    by (apply subcells_exit; [done..|lia]).
  assert (Hup : m <= Qceiling (box / skin)).
  { destruct (decide (m <= Qceiling (box / skin))) as [|Hn]; [done|exfalso].
    specialize (Hk (Qceiling (box / skin)) ltac:(lia)). lra. }
  assert (Hlow : Qceiling (box / skin) <= m).
  { apply Qceiling_le_Z. assert (HM : (0 < inject_Z m)%Q) by (rewrite <- (Zlt_Qlt 0); lia).
    apply Qle_shift_div_r; [done|].
    assert (E : (box == box / inject_Z m * inject_Z m)%Q) by (field; lra).
    rewrite E. rewrite (Qmult_comm (inject_Z m)). apply Qmult_le_compat_r; lra. }
  lia.
Qed.

Lemma _create_subcells_loop_diverges (skin box : Q) (fuel : nat) (m0 : Z) :
  (skin <= 0)%Q -> (0 < box)%Q -> 1 <= m0 ->
  _create_subcells_loop fuel skin box m0 = Diverge.
Proof.
  intros Hs Hb. revert m0. induction fuel as [|fuel IH]; intros m0 Hm; simpl; [done|].
  assert (HM : (0 < inject_Z m0)%Q) by (rewrite <- (Zlt_Qlt 0); lia).
  assert (Hq : (0 < box / inject_Z m0)%Q) by (apply Qlt_shift_div_l; lra).
  rewrite (proj2 (Qltb_lt _ _)) by lra. apply IH. lia.
Qed.

Lemma Qfloor_negative (x : Q) : (x < 0)%Q -> Qfloor x < 0.
Proof.
  intros Hx. pose proof (Qfloor_le x) as H.
  assert (H' : (inject_Z (Qfloor x) < inject_Z 0)%Q) by (change (inject_Z 0) with 0%Q; lra).
  by rewrite <- Zlt_Qlt in H'.
Qed.

Lemma axis_floor_negative (sl a : Q) :
  (0 < sl)%Q -> (Qfloor (a / sl) <? 0) = true <-> (a < 0)%Q.
Proof.
  intros Hsl. rewrite Z.ltb_lt. split.
  - intros Hf. apply Qnot_le_lt. intros Ha.
    assert (0 <= Qfloor (a / sl)); [|lia].
    apply Qfloor_nonneg. apply Qle_shift_div_l; lra.
  - intros Ha. apply Qfloor_negative. apply Qlt_shift_div_r; lra.
Qed.

Lemma _find_subcell_ValueError (m : Z) (sl : Q) (p : pos) :
  (0 < sl)%Q ->
  _find_subcell m sl p = Raise ValueError <-> ~ nonnegative p.
Proof.
  intros Hsl. unfold _find_subcell, nonnegative.
  pose proof (axis_floor_negative sl (px p) Hsl) as Hx.
  pose proof (axis_floor_negative sl (py p) Hsl) as Hy.
  pose proof (axis_floor_negative sl (pz p) Hsl) as Hz.
  set (fx := Qfloor (px p / sl)) in *. set (fy := Qfloor (py p / sl)) in *.
  set (fz := Qfloor (pz p / sl)) in *. cbv zeta.
  destruct (fx <? 0) eqn:Ex; cbn [orb].
  { split; [|done]. intros _ (H & _). assert (px p < 0)%Q by (by apply Hx). lra. }
  destruct (fy <? 0) eqn:Ey; cbn [orb].
  { split; [|done]. intros _ (_ & H & _). assert (py p < 0)%Q by (by apply Hy). lra. }
  destruct (fz <? 0) eqn:Ez; cbn [orb].
  { split; [|done]. intros _ (_ & _ & H). assert (pz p < 0)%Q by (by apply Hz). lra. }
  split; [done|]. intros Hn. exfalso. apply Hn.
  repeat split; apply Qnot_lt_le; intros Hc.
  - apply Hx in Hc. congruence.
  - apply Hy in Hc. congruence.
  - apply Hz in Hc. congruence.
Qed.

Lemma linear_id_decode (m x y z : Z) :
  0 <= x <= m - 1 -> 0 <= y <= m - 1 -> 0 <= z <= m - 1 ->
  let id := x + y * m + z * m ^ 2 in
  0 <= id < m ^ 3 /\ id mod m = x /\ (id / m) mod m = y /\ id / m / m = z.
Proof.
  intros Hx Hy Hz. cbv zeta.
  assert (Hm : 0 < m) by lia.
  replace (m ^ 2) with (m * m) by ring. replace (m ^ 3) with (m * m * m) by ring.
  assert (E1 : x + y * m + z * (m * m) = x + (y + z * m) * m) by ring.
  assert (Hd1 : (x + y * m + z * (m * m)) / m = y + z * m).
  { rewrite E1, Z.div_add by lia. rewrite Z.div_small by lia. lia. }
  split; [|split; [|split]].
  - assert (0 <= y * m <= (m - 1) * m) by nia.
    assert (0 <= z * (m * m) <= (m - 1) * (m * m)) by nia. lia.
  - rewrite E1, Z.mod_add by lia. apply Z.mod_small. lia.
  - rewrite Hd1, Z.mod_add by lia. apply Z.mod_small. lia.
  - rewrite Hd1, Z.div_add by lia. rewrite Z.div_small by lia. lia.
Qed.

Lemma stencil_centre (m : Z) (sl : Q) (p : pos) :
  in_grid m sl p ->
  _get_neighbours_subcells m sl p !! 13%nat
    = Some (Qfloor (px p / sl) + Qfloor (py p / sl) * m + Qfloor (pz p / sl) * m ^ 2).
Proof.
  intros (Hx & Hy & Hz). unfold _get_neighbours_subcells.
  rewrite list_lookup_fmap, range_lookup by (simpl; lia).
  change (Z.of_nat 13) with (9 * 1 + 3 * 1 + 1). cbn [fmap option_fmap option_map].
  f_equal. unfold neighbour_subcell. rewrite subcells_id_3d_offsets by lia.
  change (axis_offset sl (px p) 1) with (Qfloor (px p / sl)).
  change (axis_offset sl (py p) 1) with (Qfloor (py p / sl)).
  change (axis_offset sl (pz p) 1) with (Qfloor (pz p / sl)).
  set (fx := Qfloor (px p / sl)) in *. set (fy := Qfloor (py p / sl)) in *.
  set (fz := Qfloor (pz p / sl)) in *.
  assert (Hw : forall c, 0 <= c <= m - 1 -> wrap_coordinate m c = c).
  { intros c Hc. unfold wrap_coordinate. destruct (c <? 0) eqn:E1; [lia|].
    destruct (c >? m - 1) eqn:E2; [lia|done]. }
  by rewrite !Hw.
Qed.


(** *** The loop of _create_subcells *)



(** X6.  With a skin radius that is not positive and a positive box length
    the loop of [_create_subcells] never ends: no number of turns makes it
    return. *)
Theorem _create_subcells_never_returns (skin box : Q) (fuel : nat) :
  (skin <= 0)%Q -> (0 < box)%Q -> _create_subcells fuel skin box 1 = Diverge.
Proof.
  intros Hs Hb. unfold _create_subcells.
  by rewrite _create_subcells_loop_diverges by (done || lia).
Qed.

Lemma _create_subcells_never_returns_witness :
  _create_subcells 1000 0 10 1 = Diverge.
Proof.
  apply (_create_subcells_never_returns 0 10 1000); [intros H; discriminate H|reflexivity].
Defined.

(** *** The ids of _find_subcell *)





(** *** The chains of _create_neighbours *)

(** X9.  When [_create_neighbours] returns, the head list has [m^3]
    entries, the linked list one entry per particle, and the chain that
    starts at the head of a subcell holds exactly the particles
    [_find_subcell] places in that subcell, each of them once. *)
Theorem _create_neighbours_chains (m : Z) (sl : Q) (ps : list pos)
    (start_index neighbour_list : list Z) :
  0 <= m ->
  _create_neighbours m sl ps = Ok (start_index, neighbour_list) ->
  length start_index = Z.to_nat (m ^ 3) /\
  length neighbour_list = length ps /\
  forall c, 0 <= c < m ^ 3 ->
    exists head chain,
      py_index start_index c = Ok head /\
      walk_chain (length neighbour_list) neighbour_list head = Ok chain /\
      NoDup chain /\
      forall k, k ∈ chain <->
        exists (i : nat) (p : pos),
          k = Z.of_nat i /\ ps !! i = Some p /\ _find_subcell m sl p = Ok c.
Proof.
  intros Hm Hc.
  destruct (_create_neighbours_linked m sl ps _ Hm Hc) as [Hh Hn Hd Hch].
  simpl in Hh, Hn, Hd, Hch. split; [done|]. split; [done|].
  intros c Hrange.
  destruct (Hch (Z.to_nat c)) as (h & Hs & _ & Hw); [lia|].
  rewrite Z2Nat.id in Hw by lia.
  exists h, (chain_upto m sl ps (length ps) c). split.
  { apply py_index_Ok; [lia|done]. }
  split; [by rewrite Hn|]. split; [apply chain_upto_NoDup|].
  intros k. rewrite elem_of_chain_upto. split.
  - intros (i & p & -> & _ & Hp & Hf). by exists i, p.
  - intros (i & p & -> & Hp & Hf). exists i, p. repeat split; try done.
    by apply lookup_lt_Some in Hp.
Qed.

Lemma _create_neighbours_chains_witness :
  exists start_index neighbour_list,
    _create_neighbours 4 (10 / inject_Z 4) wrap_positions = Ok (start_index, neighbour_list) /\
    length start_index = Z.to_nat (4 ^ 3) /\
    length neighbour_list = length wrap_positions.
Proof.
  do 2 eexists. split; [vm_compute; reflexivity|].
  pose proof (_create_neighbours_chains 4 (10 / inject_Z 4) wrap_positions
                _ _ ltac:(lia) eq_refl) as H.
  exact (conj (proj1 H) (proj1 (proj2 H))).
Defined.



(** ** The stencil, _neighbours_for_one and get_neighbours *)

(** *** The keys of the frame *)

Lemma frame_own_keys (fr fr' : frame) (i : Z) (nb : list Z * list npfloat)
    (r : result unit) (k : Z) :
  frame_own fr i nb = (r, fr') -> is_Some (fr'.1 !! k) -> is_Some (fr.1 !! k) \/ k = i.
Proof.
  destruct fr as [ids ds]. unfold frame_own.
  destruct (ids !! i) as [a|] eqn:Ea.
  - unfold attempt, dict_getitem. destruct (ds !! i) as [b|].
    + intros [= _ <-]. simpl. destruct (decide (k = i)) as [->|Hne]; [by right|].
      rewrite lookup_insert_ne by done. by left.
    + intros [= _ <-]. by left.
  - intros [= _ <-]. simpl. destruct (decide (k = i)) as [->|Hne]; [by right|].
    rewrite lookup_insert_ne by done. by left.
Qed.

Lemma frame_other_keys (fr fr' : frame) (i : Z) (nb_dist : list npfloat) (count j : Z)
    (r : result unit) (k : Z) :
  frame_other fr i nb_dist count j = (r, fr') ->
  is_Some (fr'.1 !! k) -> is_Some (fr.1 !! k) \/ k = j.
Proof.
  destruct fr as [ids ds]. unfold frame_other.
  destruct (ids !! j) as [a|] eqn:Ea.
  - unfold attempt, dict_getitem. destruct (ds !! j) as [b|].
    + destruct (py_index nb_dist count) as [d| |].
      * intros [= _ <-]. simpl. destruct (decide (k = j)) as [->|Hne]; [by right|].
        rewrite lookup_insert_ne by done. by left.
      * intros [= _ <-]. by left.
      * intros [= _ <-]. by left.
    + intros [= _ <-]. by left.
  - unfold attempt. destruct (py_index nb_dist count) as [d| |];
      intros [= _ <-]; simpl; (destruct (decide (k = j)) as [->|Hne]; [by right|]);
      rewrite lookup_insert_ne by done; by left.
Qed.

Lemma frame_others_keys (fr fr' : frame) (i : Z) (nb_dist : list npfloat) (count : Z)
    (nb_ID : list Z) (r : result unit) (k : Z) :
  frame_others fr i nb_dist count nb_ID = (r, fr') ->
  is_Some (fr'.1 !! k) -> is_Some (fr.1 !! k) \/ k ∈ nb_ID.
Proof.
  revert fr count. induction nb_ID as [|j rest IH]; intros fr count; simpl.
  - intros [= _ <-]. by left.
  - destruct (frame_other fr i nb_dist count j) as [r1 fr1] eqn:E1.
    assert (Hstep : is_Some (fr1.1 !! k) -> is_Some (fr.1 !! k) \/ k ∈ j :: rest).
    { intros H. destruct (frame_other_keys _ _ _ _ _ _ _ _ E1 H) as [?| ->];
        [by left|right; by left]. }
    destruct r1 as [[]| |].
    + intros H Hk. destruct (IH _ _ H Hk) as [H1|H1]; [by apply Hstep|right; by right].
    + intros [= _ <-]. exact Hstep.
    + intros [= _ <-]. exact Hstep.
Qed.

Lemma frame_particle_keys (self : Neighbours) (fr fr' : frame) (i : Z) (r : result unit)
    (k : Z) :
  frame_particle self fr i = (r, fr') -> is_Some (fr'.1 !! k) ->
  is_Some (fr.1 !! k) \/ k = i \/ exists d, (k, d) ∈ pairs self i.
Proof.
  unfold frame_particle, pairs.
  destruct (_neighbours_for_one self i) as [nb| |] eqn:Hnb; simpl;
    [|intros [= _ <-]; by left..].
  pose proof (_neighbours_for_one_length _ _ _ Hnb) as Hlen.
  destruct (frame_own fr i nb) as [r1 fr1] eqn:E1.
  assert (Hown : is_Some (fr1.1 !! k) -> is_Some (fr.1 !! k) \/ k = i)
    by apply (frame_own_keys _ _ _ _ _ _ E1).
  destruct r1 as [[]| |]; [|intros [= _ <-] Hk; destruct (Hown Hk); auto..].
  intros H Hk. destruct (frame_others_keys _ _ _ _ _ _ _ _ H Hk) as [H1|H1].
  - destruct (Hown H1); auto.
  - right. right. apply list_elem_of_lookup in H1 as [n Hn].
    destruct (lookup_lt_is_Some_2 nb.2 n) as [d Hd].
    { rewrite <- Hlen. by apply lookup_lt_Some in Hn. }
    exists d. apply elem_of_zip_lookup. by exists n.
Qed.

Lemma frame_loop_keys (self : Neighbours) (l : list Z) (fr fr' : frame) (r : result unit)
    (k : Z) :
  frame_loop self fr l = (r, fr') -> is_Some (fr'.1 !! k) ->
  is_Some (fr.1 !! k) \/ k ∈ l \/ exists i d, i ∈ l /\ (k, d) ∈ pairs self i.
Proof.
  revert fr. induction l as [|i l IH]; intros fr; simpl.
  - intros [= _ <-]. by left.
  - destruct (frame_particle self fr i) as [r1 fr1] eqn:E1.
    assert (Hstep : is_Some (fr1.1 !! k) ->
              is_Some (fr.1 !! k) \/ k ∈ i :: l \/
              exists i' d, i' ∈ i :: l /\ (k, d) ∈ pairs self i').
    { intros H. destruct (frame_particle_keys _ _ _ _ _ _ E1 H) as [?|[ ->|[d Hd]]].
      - by left.
      - right. left. by left.
      - right. right. exists i, d. split; [by left|done]. }
    destruct r1 as [[]| |]; [|intros [= _ <-]; exact Hstep..].
    intros H Hk. destruct (IH _ H Hk) as [H1|[H1|(i' & d & Hi' & Hd)]].
    + by apply Hstep.
    + right. left. by right.
    + right. right. exists i', d. split; [by right|done].
Qed.

(** The ids kept for a particle are ids of positions. *)
Lemma pairs_bound (self : Neighbours) (i j : Z) (d : npfloat) :
  well_linked self -> 0 <= i -> (j, d) ∈ pairs self i ->
  0 <= j < Z.of_nat (length (positions self)).
Proof.
  intros Hwl Hi Hp.
  assert (Hnb : exists nb, _neighbours_for_one self i = Ok nb).
  { unfold pairs in Hp. destruct (_neighbours_for_one self i) as [nb| |];
      [by eexists|by apply elem_of_nil in Hp..]. }
  destruct Hnb as [nb Hnb].
  destruct (_neighbours_for_one_Ok _ _ _ Hnb) as (p & l & Hpi & _ & _).
  apply py_index_Ok in Hpi; [|done].
  pose proof (pairs_spec self (Z.to_nat i) p Hwl Hpi) as E.
  rewrite Z2Nat.id in E by done. rewrite E in Hp.
  apply elem_of_concat_map in Hp as (c & _ & Hk).
  apply elem_of_kept in Hk as (Hlt & q & Hq & [= -> _] & _).
  apply lookup_lt_Some in Hq. lia.
Qed.

Lemma constructed_keys (fuel : nat) (si : SystemInfo) (ps : list pos)
    (self : Neighbours) (k : Z) :
  constructed fuel si ps self -> num_particles si = Z.of_nat (length ps) ->
  is_Some (_neighbours_frame_IDs self !! k) <-> 0 <= k < Z.of_nat (length ps).
Proof.
  intros Hc Hnum. split.
  - intros Hk.
    destruct (frame_loop_keys _ _ _ _ _ k (built_frame _ _ _ _ Hc) Hk)
      as [H|[H|(i & d & Hi & Hd)]].
    + simpl in H. rewrite lookup_empty in H. by destruct H.
    + apply elem_of_range in H. lia.
    + apply elem_of_range in Hi.
      pose proof (pairs_bound self i k d (constructed_well_linked _ _ _ _ Hc)
                    ltac:(lia) Hd) as Hb.
      by rewrite (built_positions _ _ _ _ Hc) in Hb.
  - intros Hk. apply (constructed_entries _ _ _ _ Hc). lia.
Qed.

Lemma constructed_frame_wf (fuel : nat) (si : SystemInfo) (ps : list pos)
    (self : Neighbours) :
  constructed fuel si ps self -> frame_wf (get_frame self).
Proof.
  intros Hc.
  by destruct (frame_loop_spec _ _ _ _ frame_wf_empty (built_frame _ _ _ _ Hc)).
Qed.

(** *** The stencil of _get_neighbours_subcells *)

Lemma NoDup_bounded_length (l : list Z) (n : Z) :
  NoDup l -> (forall x, x ∈ l -> 0 <= x < n) -> Z.of_nat (length l) <= Z.max 0 n.
Proof.
  intros Hnd Hin.
  assert (Hsub : l ⊆+ range n).
  { apply NoDup_submseteq; [done|]. intros x Hx. apply elem_of_range. by apply Hin. }
  apply submseteq_length in Hsub. rewrite range_length in Hsub. lia.
Qed.





(** *** The outcomes of _neighbours_for_one *)

Lemma py_index_wrap {A : Type} (l : list A) (i : Z) :
  - Z.of_nat (length l) <= i < Z.of_nat (length l) ->
  exists a, py_index l i = Ok a /\ a ∈ l.
Proof.
  intros Hi. unfold py_index.
  set (k := if i <? 0 then Z.of_nat (length l) + i else i).
  assert (Hk : 0 <= k < Z.of_nat (length l)) by (unfold k; destruct (i <? 0) eqn:E; lia).
  rewrite (proj2 (andb_true_iff _ _)) by (split; lia).
  destruct (lookup_lt_is_Some_2 l (Z.to_nat k)) as [a Ha]; [lia|].
  exists a. rewrite Ha. split; [done|]. by apply list_elem_of_lookup_2 in Ha.
Qed.

Lemma py_index_IndexError {A : Type} (l : list A) (i : Z) :
  ~ (- Z.of_nat (length l) <= i < Z.of_nat (length l)) ->
  py_index l i = Raise IndexError.
Proof.
  intros Hi. unfold py_index.
  destruct (i <? 0) eqn:E.
  - destruct ((0 <=? Z.of_nat (length l) + i) && _) eqn:Hin; [|done].
    apply andb_true_iff in Hin. lia.
  - destruct ((0 <=? i) && _) eqn:Hin; [|done]. apply andb_true_iff in Hin. lia.
Qed.

Lemma _neighbours_for_one_at (self : Neighbours) (i : Z) (p : pos) :
  well_linked self -> py_index (positions self) i = Ok p ->
  exists nb, _neighbours_for_one self i = Ok nb /\
    zip nb.1 nb.2 = concat (map (kept self i p) (candidates self p)).
Proof.
  intros [Hm Hl] Hp. unfold _neighbours_for_one. rewrite Hp.
  unfold rbind at 1.
  rewrite (collect_neighbours_spec _ _ _ _ _ _ Hl);
    [|intros c Hc; by apply _get_neighbours_subcells_range in Hc].
  unfold rbind. apply keep_neighbours_spec.
  intros j Hj. apply elem_of_concat_map in Hj as (c & _ & Hj).
  by apply chain_upto_bound in Hj.
Qed.

(** X13.  On a constructed object [_neighbours_for_one] raises IndexError
    exactly for a particle id outside [-N, N), [N] being the number of
    positions.  For every other id it returns two lists of one length, and
    every id in the first is above the given one and below [N]. *)
Theorem _neighbours_for_one_outcome (fuel : nat) (si : SystemInfo) (ps : list pos)
    (self : Neighbours) (particle_ID : Z) :
  Neighbours_init fuel si ps = Ok self ->
  let N := Z.of_nat (length ps) in
  (~ (- N <= particle_ID < N) -> _neighbours_for_one self particle_ID = Raise IndexError) /\
  (- N <= particle_ID < N ->
   exists nb, _neighbours_for_one self particle_ID = Ok nb /\
     length nb.1 = length nb.2 /\
     forall j, j ∈ nb.1 -> particle_ID < j < N).
Proof.
  intros Hinit N. pose proof (Neighbours_init_Ok _ _ _ _ Hinit) as Hc.
  pose proof (constructed_well_linked _ _ _ _ Hc) as Hwl.
  pose proof (built_positions _ _ _ _ Hc) as Hps. split.
  - intros Hout. unfold _neighbours_for_one.
    rewrite py_index_IndexError; [done|]. by rewrite Hps.
  - intros Hin. destruct (py_index_wrap (positions self) particle_ID) as (p & Hp & _).
    { by rewrite Hps. }
    destruct (_neighbours_for_one_at self particle_ID p Hwl Hp) as (nb & Hnb & Hzip).
    exists nb. split; [done|].
    pose proof (_neighbours_for_one_length _ _ _ Hnb) as Hlen. split; [done|].
    intros j Hj. apply list_elem_of_lookup in Hj as [n Hn].
    destruct (lookup_lt_is_Some_2 nb.2 n) as [d Hd].
    { rewrite <- Hlen. by apply lookup_lt_Some in Hn. }
    assert (Hjd : (j, d) ∈ zip nb.1 nb.2) by (apply elem_of_zip_lookup; by exists n).
    rewrite Hzip in Hjd. apply elem_of_concat_map in Hjd as (c & Hcand & Hk).
    apply elem_of_kept in Hk as (Hlt & q & Hq & [= -> _] & _).
    split; [done|]. apply lookup_lt_Some in Hq. rewrite Hps in Hq.
    unfold candidates in Hcand. apply elem_of_concat_map in Hcand as (cell & _ & Hch).
    apply chain_upto_bound in Hch. unfold N. lia.
Qed.

Lemma _neighbours_for_one_outcome_witness :
  exists self, Neighbours_init 4 wrap_info wrap_positions = Ok self /\
    _neighbours_for_one self 2 = Raise IndexError.
Proof.
  destruct (Neighbours_init 4 wrap_info wrap_positions) as [self| |] eqn:E;
    [|vm_compute in E; discriminate..].
  exists self. split; [reflexivity|].
  apply (proj1 (_neighbours_for_one_outcome 4 wrap_info wrap_positions self 2 E)).
  simpl. lia.
Defined.

(** *** The outcomes of get_neighbours *)

(** X14.  On an object constructed with as many particles as positions,
    [get_neighbours] returns for every id from 0 to N - 1 the two stored
    lists, which have one length; for any other id the locals it returns
    were never assigned and it raises UnboundLocalError. *)
Theorem get_neighbours_outcome (fuel : nat) (si : SystemInfo) (ps : list pos)
    (self : Neighbours) (particle_ID : Z) :
  Neighbours_init fuel si ps = Ok self ->
  num_particles si = Z.of_nat (length ps) ->
  (0 <= particle_ID < Z.of_nat (length ps) ->
   exists nb_ID nb_dist,
     get_neighbours self particle_ID = Returns (nb_ID, nb_dist) /\
     length nb_ID = length nb_dist /\
     zip nb_ID nb_dist = entries (get_frame self) particle_ID) /\
  (~ (0 <= particle_ID < Z.of_nat (length ps)) ->
   get_neighbours self particle_ID = Throws UnboundLocalError).
Proof.
  intros Hinit Hnum. pose proof (Neighbours_init_Ok _ _ _ _ Hinit) as Hc.
  pose proof (constructed_keys fuel si ps self particle_ID Hc Hnum) as Hkeys.
  pose proof (constructed_frame_wf fuel si ps self Hc particle_ID) as Hwf.
  unfold get_neighbours, entries, get_frame in *. simpl in Hwf. simpl.
  split.
  - intros Hin. apply Hkeys in Hin as [ids Hids]. rewrite Hids in Hwf |- *.
    destruct (_neighbours_frame_dist self !! particle_ID) as [ds|]; [|done].
    by exists ids, ds.
  - intros Hout. destruct (_neighbours_frame_IDs self !! particle_ID) as [ids|] eqn:E;
      [|done].
    exfalso. apply Hout, Hkeys. by eexists.
Qed.

Lemma get_neighbours_outcome_witness :
  exists self, Neighbours_init 4 wrap_info wrap_positions = Ok self /\
    get_neighbours self 7 = Throws UnboundLocalError.
Proof.
  destruct (Neighbours_init 4 wrap_info wrap_positions) as [self| |] eqn:E;
    [|vm_compute in E; discriminate..].
  exists self. split; [reflexivity|].
  apply (proj2 (get_neighbours_outcome 4 wrap_info wrap_positions self 7 E eq_refl)).
  simpl. lia.
Defined.

(** ** What update_neighbours does *)

(** *** The rebuild test *)

Lemma np_sqrt_NaN (q : Q) : (q < 0)%Q -> np_sqrt q = NaN.
Proof.
  intros Hq. unfold np_sqrt. destruct (Qle_bool 0 q) eqn:E; [|done].
  apply Qle_bool_iff in E. lra.
Qed.

Lemma fold_np_maximum_NaN (l : list npfloat) : fold_left np_maximum l NaN = NaN.
Proof. induction l as [|x l IH]; simpl; [done|]. exact IH. Qed.

Lemma fold_np_maximum_elem (l : list npfloat) (x : npfloat) :
  NaN ∈ l -> fold_left np_maximum l x = NaN.
Proof.
  revert x. induction l as [|y l IH]; intros x Hin; [by apply elem_of_nil in Hin|].
  simpl. apply elem_of_cons in Hin as [<-|Hin].
  - replace (np_maximum x NaN) with NaN by (by destruct x). apply fold_np_maximum_NaN.
  - by apply IH.
Qed.

Lemma np_max_NaN (l : list npfloat) : NaN ∈ l -> np_max l = Ok NaN.
Proof.
  destruct l as [|x l]; [intros H; by apply elem_of_nil in H|].
  intros H. simpl. f_equal. apply elem_of_cons in H as [<-|H].
  - apply fold_np_maximum_NaN.
  - by apply fold_np_maximum_elem.
Qed.

Lemma movement_Ok (positions_old positions_current : list pos) :
  length positions_old = length positions_current ->
  exists mv, movement positions_old positions_current = Ok mv /\
    forall (i : nat) o c, positions_old !! i = Some o -> positions_current !! i = Some c ->
      forall x, x ∈ movement_row o c -> x ∈ mv.
Proof.
  revert positions_current.
  induction positions_old as [|o olds IH]; intros [|c curs] Hlen; try done.
  - exists []. split; [done|]. intros i o c Ho. done.
  - destruct (IH curs) as (mv & Hmv & Hin); [by injection Hlen|].
    exists (movement_row o c ++ mv). split.
    + cbn [movement]. by rewrite Hmv.
    + intros [|i] o' c' Ho Hc x Hx.
      * injection Ho as <-. injection Hc as <-. apply elem_of_app. by left.
      * apply elem_of_app. right. by apply (Hin i o' c').
Qed.

(** A squared coordinate that has grown switches the test off. *)
Lemma rebuild_test_grown (self : Neighbours) (positions_old positions_current : list pos)
    (i : nat) (o c : pos) :
  length positions_old = length positions_current ->
  positions_old !! i = Some o -> positions_current !! i = Some c ->
  (px o ^ 2 < px c ^ 2)%Q \/ (py o ^ 2 < py c ^ 2)%Q \/ (pz o ^ 2 < pz c ^ 2)%Q ->
  rebuild_test self positions_old positions_current = Ok false.
Proof.
  intros Hlen Ho Hc Hgrow.
  destruct (movement_Ok _ _ Hlen) as (mv & Hmv & Hin).
  assert (Hnan : NaN ∈ mv).
  { apply (Hin i o c Ho Hc). unfold movement_row.
    destruct Hgrow as [H|[H|H]].
    - rewrite (np_sqrt_NaN (px o ^ 2 - px c ^ 2)) by lra. by left.
    - rewrite (np_sqrt_NaN (py o ^ 2 - py c ^ 2)) by lra. right. by left.
    - rewrite (np_sqrt_NaN (pz o ^ 2 - pz c ^ 2)) by lra. right. right. by left. }
  unfold rebuild_test. rewrite Hmv. simpl. by rewrite (np_max_NaN mv Hnan).
Qed.

Lemma fold_np_maximum_zero (l : list npfloat) (x : npfloat) :
  zero_root x -> Forall zero_root l -> zero_root (fold_left np_maximum l x).
Proof.
  revert x. induction l as [|y l IH]; intros x Hx Hl; simpl; [done|].
  apply Forall_cons in Hl as [Hy Hl]. apply IH; [|done].
  destruct Hx as (q & -> & Hq). destruct Hy as (q' & -> & Hq').
  simpl. destruct (Qle_bool q q'); [by exists q'|by exists q].
Qed.

Lemma movement_unchanged (ps : list pos) :
  exists mv, movement ps ps = Ok mv /\ Forall zero_root mv /\ length mv = (3 * length ps)%nat.
Proof.
  induction ps as [|p ps (mv & Hmv & Hall & Hlen)].
  - exists []. by repeat split.
  - exists (movement_row p p ++ mv). cbn [movement]. rewrite Hmv. split; [done|].
    split; [|rewrite length_app; simpl; lia].
    apply Forall_app. split; [|done].
    assert (Hz : forall x : Q, zero_root (np_sqrt (x ^ 2 - x ^ 2))).
    { intros x. exists (x ^ 2 - x ^ 2)%Q. split; [|ring].
      unfold np_sqrt. rewrite (proj2 (Qle_bool_iff _ _)); [done|].
      assert (E : (x ^ 2 - x ^ 2 == 0)%Q) by ring. lra. }
    unfold movement_row. repeat (apply Forall_cons; split; [apply Hz|]). constructor.
Qed.

(** With the positions as they were at the last build the test compares the
    skin margin with 0. *)
Lemma rebuild_test_unchanged (self : Neighbours) (ps : list pos) :
  ps <> [] ->
  rebuild_test self ps ps
    = Ok (Qltb (_skin_radius self - cutoff (info self)) 0).
Proof.
  intros Hne. destruct (movement_unchanged ps) as (mv & Hmv & Hall & Hlen).
  unfold rebuild_test. rewrite Hmv. simpl.
  destruct mv as [|x mv]; [destruct ps; [done|simpl in Hlen; lia]|].
  apply Forall_cons in Hall as [Hx Hall]. simpl.
  destruct (fold_np_maximum_zero mv x Hx Hall) as (q & -> & Hq). f_equal. simpl.
  set (margin := (_skin_radius self - cutoff (info self))%Q).
  rewrite (proj2 (Qltb_ge (margin * margin) q)); [by rewrite orb_false_r|].
  rewrite Hq. nra.
Qed.

(** *** The call of update_neighbours *)

Lemma update_neighbours_effect (System_states : list (list pos)) (self self' : Neighbours)
    (r : result (list Z)) :
  update_neighbours System_states self = (r, self') ->
  exists fr n, self' = set_update_count (set_frame self fr) n /\
    ((n = 1 /\ r = Ok (_neighbour_list self)) \/
     (n = _update_count self /\ forall nl, r <> Ok nl)).
Proof.
  unfold update_neighbours, _create_neighbours_frame.
  destruct (frame_loop self (∅, ∅) _) as [r0 fr].
  assert (Hsame : set_frame self fr
                  = set_update_count (set_frame self fr) (_update_count self)) by done.
  destruct r0 as [[]| |];
    [|intros [= <- <-]; exists fr, (_update_count self); split; [done|by right]..].
  set (self1 := set_frame self fr) in *.
  unfold attempt.
  destruct (py_index System_states (_last_update self1)) as [old| |];
    [|intros [= <- <-]; exists fr, (_update_count self); split; [done|by right]..].
  destruct (py_index System_states (-1)) as [cur| |];
    [|intros [= <- <-]; exists fr, (_update_count self); split; [done|by right]..].
  destruct (rebuild_test self1 old cur) as [far| |];
    [|intros [= <- <-]; exists fr, (_update_count self); split; [done|by right]..].
  destruct far.
  - intros [= <- <-]. exists fr, (_update_count self). split; [done|by right].
  - intros [= <- <-]. exists fr, 1. split; [done|by left].
Qed.

(** X15.  Whatever a call of [update_neighbours] does (return, or raise at
    any point), it leaves the two linked lists, the grid, the positions and
    [_last_update] as they were.  The counter is 1 after a call that
    returns and unchanged after a call that raises. *)
Theorem update_neighbours_keeps_lists (System_states : list (list pos))
    (self self' : Neighbours) (r : result (list Z)) :
  update_neighbours System_states self = (r, self') ->
  _start_index self' = _start_index self /\
  _neighbour_list self' = _neighbour_list self /\
  _subcells_inrow self' = _subcells_inrow self /\
  _subcell_length self' = _subcell_length self /\
  positions self' = positions self /\
  _last_update self' = _last_update self /\
  ((exists nl, r = Ok nl) -> r = Ok (_neighbour_list self) /\ _update_count self' = 1) /\
  ((forall nl, r <> Ok nl) -> _update_count self' = _update_count self).
Proof.
  intros H. destruct (update_neighbours_effect _ _ _ _ H) as (fr & n & -> & Hn).
  do 6 (split; [done|]). split.
  - intros [nl Hnl]. destruct Hn as [[-> ->]|[_ Hr]]; [done|]. by destruct (Hr nl).
  - intros Hr. destruct Hn as [[_ ->]|[-> _]]; [by destruct (Hr (_neighbour_list self))|done].
Qed.

Lemma update_neighbours_keeps_lists_witness :
  exists r self',
    update_neighbours [wrap_positions] wrap_self = (r, self') /\
    _neighbour_list self' = _neighbour_list wrap_self /\
    _last_update self' = _last_update wrap_self.
Proof.
  do 2 eexists. split; [vm_compute; reflexivity|].
  pose proof (update_neighbours_keeps_lists [wrap_positions] wrap_self _ _ eq_refl) as H.
  exact (conj (proj1 (proj2 H)) (proj1 (proj2 (proj2 (proj2 (proj2 (proj2 H))))))).
Defined.

Lemma update_neighbours_constructed (fuel : nat) (si : SystemInfo) (ps : list pos)
    (self : Neighbours) (System_states : list (list pos))
    (positions_old positions_current : list pos) :
  Neighbours_init fuel si ps = Ok self ->
  py_index System_states 0 = Ok positions_old ->
  py_index System_states (-1) = Ok positions_current ->
  update_neighbours System_states self
    = match rebuild_test self positions_old positions_current with
      | Ok true => (Raise AttributeError, self)
      | Ok false => (Ok (_neighbour_list self), set_update_count self 1)
      | Raise e => (Raise e, self)
      | Diverge => (Diverge, self)
      end.
Proof.
  intros Hinit Hold Hcur. pose proof (Neighbours_init_Ok _ _ _ _ Hinit) as Hc.
  pose proof (built_frame _ _ _ _ Hc) as Hfr.
  unfold update_neighbours, _create_neighbours_frame.
  rewrite (built_info _ _ _ _ Hc), Hfr.
  assert (E : set_frame self (get_frame self) = self) by by destruct self.
  rewrite E, (built_last_update _ _ _ _ Hc), Hold, Hcur. unfold attempt.
  by destruct (rebuild_test self positions_old positions_current) as [[]| |].
Qed.





(** ** What the constructors accept *)

(** *** When Neighbours.__init__ raises *)

Lemma _find_subcell_cases (m : Z) (sl : Q) (p : pos) :
  _find_subcell m sl p = Raise ValueError \/ exists c, _find_subcell m sl p = Ok c.
Proof.
  unfold _find_subcell. destruct (_ || _); [by left|right; by eexists].
Qed.

Lemma _create_neighbours_loop_ValueError (m : Z) (sl : Q) (ps : list pos) (i : Z)
    (st : list Z * list Z) :
  (exists p, p ∈ ps /\ _find_subcell m sl p = Raise ValueError) ->
  _create_neighbours_loop m sl ps i st = Raise ValueError.
Proof.
  revert i st. induction ps as [|p ps IH]; intros i st (q & Hq & Hraise).
  - by apply elem_of_nil in Hq.
  - simpl. destruct (_find_subcell_cases m sl p) as [E|[c E]]; rewrite E; [done|].
    simpl. apply IH. exists q. split; [|done].
    apply elem_of_cons in Hq as [->|Hq]; [congruence|done].
Qed.

Lemma frame_loop_raise (self : Neighbours) (l1 l2 : list Z) (i : Z) (fr : frame) (e : exn) :
  frame_wf fr ->
  (forall x, x ∈ l1 -> exists nb, _neighbours_for_one self x = Ok nb) ->
  _neighbours_for_one self i = Raise e ->
  exists fr', frame_loop self fr (l1 ++ i :: l2) = (Raise e, fr').
Proof.
  revert fr. induction l1 as [|x l1 IH]; intros fr Hwf Hall Hraise.
  - exists fr. simpl. unfold frame_particle. by rewrite Hraise.
  - destruct (Hall x) as [nb Hnb]; [by left|].
    destruct (frame_particle_spec self fr x nb Hwf Hnb) as (fr1 & E1 & Hwf1 & _).
    simpl. rewrite E1. apply IH; [done| |done].
    intros y Hy. apply Hall. by right.
Qed.

Lemma range_split (n : nat) (k : Z) :
  Z.of_nat n < k ->
  exists rest, range k = range (Z.of_nat n) ++ Z.of_nat n :: rest.
Proof.
  intros Hk. unfold range.
  replace (Z.to_nat k) with (n + S (Z.to_nat k - S n))%nat by lia.
  rewrite seq_app, map_app. rewrite Nat2Z.id. simpl. by eexists.
Qed.

Lemma Neighbours_init_ValueError (fuel : nat) (si : SystemInfo) (ps : list pos) :
  (0 < char_length si)%Q -> (0 < worse_sigma si)%Q ->
  (Z.to_nat (Qceiling (char_length si / (worse_sigma si * 3))) <= fuel)%nat ->
  (exists p, p ∈ ps /\ ~ nonnegative p) ->
  Neighbours_init fuel si ps = Raise ValueError.
Proof.
  intros Hbox Hw Hfuel (p & Hp & Hneg).
  destruct (_create_subcells_loop_total (worse_sigma si * 3)%Q (char_length si))
    as [m Hm]; [lra|done|].
  pose proof (_create_subcells_loop_Ok _ _ _ _ _ (Hm _ Hfuel)) as (Hm1 & _).
  assert (Hsl : (0 < char_length si / inject_Z m)%Q).
  { apply Qlt_shift_div_l; [rewrite <- (Zlt_Qlt 0); lia|lra]. }
  unfold Neighbours_init, _create_subcells. rewrite (Hm fuel Hfuel). simpl.
  unfold _create_neighbours. rewrite _create_neighbours_loop_ValueError; [done|].
  exists p. split; [done|]. by apply _find_subcell_ValueError.
Qed.

Lemma Neighbours_init_IndexError (fuel : nat) (si : SystemInfo) (ps : list pos) :
  (0 < char_length si)%Q -> (0 < worse_sigma si)%Q ->
  (Z.to_nat (Qceiling (char_length si / (worse_sigma si * 3))) <= fuel)%nat ->
  (forall p, p ∈ ps -> nonnegative p) ->
  Z.of_nat (length ps) < num_particles si ->
  Neighbours_init fuel si ps = Raise IndexError.
Proof.
  intros Hbox Hw Hfuel Hps Hnum.
  destruct (_create_subcells_loop_total (worse_sigma si * 3)%Q (char_length si))
    as [m Hm]; [lra|done|].
  pose proof (_create_subcells_loop_Ok _ _ _ _ _ (Hm _ Hfuel)) as (Hm1 & _).
  set (sl := (char_length si / inject_Z m)%Q).
  assert (Hsl : (0 < sl)%Q).
  { apply Qlt_shift_div_l; [rewrite <- (Zlt_Qlt 0); lia|lra]. }
  destruct (_create_neighbours_loop_total m sl ps 0
              (replicate (Z.to_nat (m ^ 3)) (-1), replicate (length ps) (-1)))
    as [lists Hlists].
  { intros p Hp. destruct (Hps p Hp) as (Hx & Hy & Hz). by apply _find_subcell_total. }
  set (self0 := mk_Neighbours si ps (char_length si) (worse_sigma si * 3)%Q m sl
                  lists.1 lists.2 ∅ ∅ 0 0).
  assert (Hwl : well_linked self0).
  { split; [done|]. simpl. destruct lists as [start nl].
    apply _create_neighbours_linked; [lia|done]. }
  destruct (range_split (length ps) (num_particles si) Hnum) as [rest Hrange].
  destruct (frame_loop_raise self0 (range (Z.of_nat (length ps))) rest
              (Z.of_nat (length ps)) (∅, ∅) IndexError frame_wf_empty) as [fr Hfr].
  { intros i Hi. apply elem_of_range in Hi.
    destruct (lookup_lt_is_Some_2 ps (Z.to_nat i)) as [p Hp]; [lia|].
    destruct (_neighbours_for_one_spec self0 (Z.to_nat i) p Hwl Hp) as (nb & Hnb & _).
    exists nb. by rewrite Z2Nat.id in Hnb by lia. }
  { unfold _neighbours_for_one. simpl.
    by rewrite py_index_out_of_range by lia. }
  unfold Neighbours_init, _create_subcells. rewrite (Hm fuel Hfuel). simpl.
  fold sl. unfold _create_neighbours. rewrite Hlists. simpl.
  unfold _create_neighbours_frame. simpl. fold self0. by rewrite Hrange, Hfr.
Qed.

(** *** The box length of SystemInfo *)

Lemma SystemInfo_init_box (characteristic_length sigma : Q) :
  (0 < sigma)%Q ->
  let cutoff_radius := (sigma * 3)%Q in
  let k := Qceiling (characteristic_length / cutoff_radius) in
  (characteristic_length <= inject_Z k * cutoff_radius)%Q /\
  (inject_Z k * cutoff_radius < characteristic_length + cutoff_radius)%Q /\
  ((inject_Z k * cutoff_radius / 2 < cutoff_radius)%Q <->
   (characteristic_length <= cutoff_radius)%Q) /\
  ((cutoff_radius <= inject_Z k * cutoff_radius / 2)%Q <-> 2 <= k).
Proof.
  intros Hs. cbv zeta. set (c := (sigma * 3)%Q). set (L := characteristic_length).
  assert (Hc : (0 < c)%Q) by (unfold c; lra).
  pose proof (Qle_ceiling (L / c)) as H1. pose proof (Qceiling_lt (L / c)) as H2.
  set (k := Qceiling (L / c)) in *.
  assert (Ek : (inject_Z k == inject_Z (k - 1) + 1)%Q).
  { change 1%Q with (inject_Z 1). rewrite <- inject_Z_plus.
    by replace (k - 1 + 1) with k by lia. }
  assert (E : (L == L / c * c)%Q) by (field; lra).
  assert (Ha : (L / c * c <= inject_Z k * c)%Q) by (apply Qmult_le_compat_r; lra).
  assert (Hb : (inject_Z (k - 1) * c < L / c * c)%Q)
    by (apply Qmult_lt_compat_r; lra).
  assert (Ehalf : (inject_Z k * c / 2 == (1 # 2) * (inject_Z k * c))%Q) by field.
  set (t := (L / c * c)%Q) in *. set (j := inject_Z (k - 1)) in *.
  assert (Hk0 : (inject_Z k * c == j * c + c)%Q) by (rewrite Ek; ring).
  split; [lra|]. split; [lra|]. split; [split|split].
  - intros Hlt. rewrite Ehalf in Hlt.
    assert (Hk : (inject_Z k < 2)%Q) by nra.
    assert (Hk' : (inject_Z k < inject_Z 2)%Q) by (change (inject_Z 2) with 2%Q; lra).
    rewrite <- Zlt_Qlt in Hk'.
    assert (Hk1 : (inject_Z k <= inject_Z 1)%Q) by (rewrite <- Zle_Qle; lia).
    change (inject_Z 1) with 1%Q in Hk1. nra.
  - intros HL. rewrite Ehalf.
    assert (Hq : (L / c <= inject_Z 1)%Q).
    { change (inject_Z 1) with 1%Q. apply Qle_shift_div_r; lra. }
    apply Qceiling_le_Z in Hq. fold k in Hq.
    assert (Hk1 : (inject_Z k <= inject_Z 1)%Q) by (rewrite <- Zle_Qle; lia).
    change (inject_Z 1) with 1%Q in Hk1. nra.
  - intros Hle. rewrite Ehalf in Hle.
    assert (Hk : (2 <= inject_Z k)%Q) by nra.
    assert (Hk' : (inject_Z 2 <= inject_Z k)%Q) by (change (inject_Z 2) with 2%Q; lra).
    by rewrite <- Zle_Qle in Hk'.
  - intros Hk. rewrite Ehalf.
    assert (Hk' : (inject_Z 2 <= inject_Z k)%Q) by (by rewrite <- Zle_Qle).
    change (inject_Z 2) with 2%Q in Hk'. nra.
Qed.

Lemma sigma_cutoff_nonzero (sigma : Q) : (0 < sigma)%Q -> ~ (sigma * 3 == 0)%Q.
Proof. intros Hs E. lra. Qed.

(** *** The outcomes of Neighbours.__init__ *)

Lemma nonnegative_dec (p : pos) : {nonnegative p} + {~ nonnegative p}.
Proof.
  unfold nonnegative.
  destruct (Qlt_le_dec (px p) 0) as [Hx|Hx]; [right; intros (H & _); lra|].
  destruct (Qlt_le_dec (py p) 0) as [Hy|Hy]; [right; intros (_ & H & _); lra|].
  destruct (Qlt_le_dec (pz p) 0) as [Hz|Hz]; [right; intros (_ & _ & H); lra|].
  by left.
Qed.

Lemma nonnegative_all_or_not (ps : list pos) :
  (forall p, p ∈ ps -> nonnegative p) \/ (exists p, p ∈ ps /\ ~ nonnegative p).
Proof.
  induction ps as [|p ps [IH|(q & Hq & Hn)]].
  - left. intros p Hp. by apply elem_of_nil in Hp.
  - destruct (nonnegative_dec p) as [Hp|Hp].
    + left. intros q Hq. apply elem_of_cons in Hq as [->|Hq]; [done|by apply IH].
    + right. exists p. split; [by left|done].
  - right. exists q. split; [by right|done].
Qed.





(** *** The outcomes of SystemInfo.__init__ *)





(** *** SystemInfo.__init__ and the grid of Neighbours *)



(** ** From the constructor of SystemInfo to the frame *)

Lemma Qceiling_above (x : Q) (n : Z) : (inject_Z n < x)%Q -> n + 1 <= Qceiling x.
Proof.
  intros H. pose proof (Qle_ceiling x) as Hc.
  assert (Hlt : (inject_Z n < inject_Z (Qceiling x))%Q) by lra.
  rewrite <- Zlt_Qlt in Hlt. lia.
Qed.

(** The pairs of a constructed object on a grid that is fine enough. *)
Lemma constructed_complete (fuel : nat) (si : SystemInfo) (ps : list pos)
    (self : Neighbours) (i j : nat) (p q : pos) :
  constructed fuel si ps self ->
  num_particles si = Z.of_nat (length ps) ->
  (forall r, r ∈ ps -> in_box (char_length si) r) ->
  (cutoff si <= _subcell_length self)%Q ->
  4 <= _subcells_inrow self \/
    (3 <= _subcells_inrow self /\ (cutoff si < _subcell_length self)%Q) ->
  ps !! i = Some p -> ps !! j = Some q -> (i < j)%nat ->
  (0 < np_value (minimum_image_distance (char_length si) p q) <= Q2R (cutoff si))%R ->
  filter (fun e => e.1 = Z.of_nat j) (entries (get_frame self) (Z.of_nat i))
    = [(Z.of_nat j, minimum_image_distance (char_length si) p q)] /\
  filter (fun e => e.1 = Z.of_nat i) (entries (get_frame self) (Z.of_nat j))
    = [(Z.of_nat i, minimum_image_distance (char_length si) p q)].
Proof.
  intros Hc Hnum Hin Hcut Hgrid Hi Hj Hij Hreal.
  destruct (constructed_entries _ _ _ _ Hc) as [Hent Hkeys].
  assert (Ecut : cutoff si = cutoff (info self)) by (by rewrite (built_info _ _ _ _ Hc)).
  assert (Ebox : char_length si = _box_length self) by (by rewrite (built_box _ _ _ _ Hc)).
  rewrite Ecut in Hcut, Hgrid, Hreal. rewrite Ebox in Hin, Hreal. rewrite Ebox.
  pose proof (constructed_well_linked _ _ _ _ Hc) as Hwl.
  pose proof (constructed_subcells_inrow _ _ _ _ Hc) as Hm.
  assert (Hpos : (0 < _box_length self)%Q).
  { destruct (Hin p) as [[H0 H1] _]; [by apply list_elem_of_lookup_2 in Hi|]. lra. }
  assert (HM : (0 < inject_Z (_subcells_inrow self))%Q)
    by (rewrite <- (Zlt_Qlt 0); lia).
  assert (Esl : _subcell_length self
                = (_box_length self / inject_Z (_subcells_inrow self))%Q).
  { rewrite <- Ebox. apply (built_length _ _ _ _ Hc). }
  assert (Hsl : (0 < _subcell_length self)%Q).
  { rewrite Esl. apply Qlt_shift_div_l; [done|]. lra. }
  assert (Hprod : (_subcell_length self * inject_Z (_subcells_inrow self)
                   == _box_length self)%Q).
  { rewrite Esl. field. lra. }
  assert (Hin' : forall r, r ∈ positions self -> in_box (_box_length self) r).
  { intros r Hr. apply Hin. by rewrite <- (built_positions _ _ _ _ Hc). }
  rewrite <- (built_positions _ _ _ _ Hc) in Hi, Hj.
  assert (Ht : Q_lt_np 0 (minimum_image_distance (_box_length self) p q)
               && np_le_Q (minimum_image_distance (_box_length self) p q)
                    (cutoff (info self)) = true).
  { apply real_kept_test; [apply sum_of_squares_nonneg|exact Hreal]. }
  pose proof (pairs_complete self Hwl Hsl Hprod Hcut Hgrid Hin' i j p q Hi Hj Hij Ht)
    as Hpairs.
  assert (HiN : 0 <= Z.of_nat i < num_particles si).
  { apply lookup_lt_Some in Hj. rewrite (built_positions _ _ _ _ Hc) in Hj. lia. }
  split.
  - rewrite (entries_of_smaller self _ _ Hent) by lia. exact Hpairs.
  - rewrite (entries_of_larger self _ _ Hent) by lia. by rewrite Hpairs.
Qed.



(** ** System.update_state and System.state *)

Lemma py_index_app_l {A : Type} (l k : list A) (i : Z) :
  0 <= i < Z.of_nat (length l) -> py_index (l ++ k) i = py_index l i.
Proof.
  intros Hi. destruct (py_index_in_range l i Hi) as [a Ha]. rewrite Ha.
  apply py_index_Ok; [lia|]. apply py_index_Ok in Ha; [|lia].
  by apply lookup_app_l_Some.
Qed.

Lemma py_index_last {A : Type} (l : list A) (a : A) : py_index (l ++ [a]) (-1) = Ok a.
Proof.
  unfold py_index. cbv zeta. rewrite length_app. simpl length.
  change (-1 <? 0) with true. cbv iota.
  replace (Z.of_nat (length l + 1) + -1) with (Z.of_nat (length l)) by lia.
  rewrite (proj2 (Z.leb_le _ _)) by lia. rewrite (proj2 (Z.ltb_lt _ _)) by lia.
  rewrite Nat2Z.id. cbn [andb].
  by rewrite list_lookup_middle.
Qed.

Lemma py_index_app_last {A : Type} (l k : list A) (a : A) :
  py_index (l ++ a :: k) (-1) = Ok (List.last k a).
Proof.
  revert a. induction k as [|b k IH] using rev_ind; intros a.
  - apply py_index_last.
  - replace (l ++ a :: k ++ [b]) with ((l ++ a :: k) ++ [b]) by (by rewrite <- app_assoc).
    rewrite py_index_last. by rewrite last_last.
Qed.

(** X23.  [update_state] with a SystemState appends it, and [state()] then
    returns it.  With a list whose first element is a SystemState it appends
    the whole list, unchecked past the first element, and [state()] then
    returns the last element of the list.  After a call that returns, the
    earlier states are found at the indices they had; after a call that
    raises, the list of states is as it was. *)
Theorem state_after_update_state (_systemStates _systemStates' : list pyvalue)
    (new_state : pyvalue) (r : outcome unit) :
  update_state _systemStates new_state = (r, _systemStates') ->
  (is_SystemState new_state = true ->
   r = Returns tt /\ state _systemStates' = Ok new_state) /\
  (forall first rest, new_state = PyList (first :: rest) -> is_SystemState first = true ->
   r = Returns tt /\ state _systemStates' = Ok (List.last rest first)) /\
  (r = Returns tt ->
   forall k, 0 <= k < Z.of_nat (length _systemStates) ->
     py_index (states _systemStates') k = py_index (states _systemStates) k) /\
  (r <> Returns tt -> _systemStates' = _systemStates).
Proof.
  unfold update_state, state, states. intros H. split; [|split; [|split]].
  - intros Hs. rewrite Hs in H. injection H as <- <-. split; [done|apply py_index_last].
  - intros first rest -> Hf. simpl in H. rewrite Hf in H. injection H as <- <-.
    split; [done|apply py_index_app_last].
  - intros -> k Hk. destruct (is_SystemState new_state).
    + injection H as <-. by apply py_index_app_l.
    + destruct new_state as [s|[|first rest]|]; try discriminate H.
      destruct (is_SystemState first); [|discriminate H].
      injection H as <-. by apply py_index_app_l.
  - intros Hr. destruct (is_SystemState new_state); [by injection H as <- <-|].
    destruct new_state as [s|[|first rest]|]; try (by injection H as <- <-).
    destruct (is_SystemState first); by injection H as <- <-.
Qed.

Lemma state_after_update_state_witness :
  state ([SystemState [mk_pos 0 0 0]] ++ [SystemState [mk_pos 1 0 0]; PyOther]) = Ok PyOther.
Proof.
  refine (proj2 (proj1 (proj2 (state_after_update_state [SystemState [mk_pos 0 0 0]] _
            (PyList [SystemState [mk_pos 1 0 0]; PyOther]) _ eq_refl)) _ _ eq_refl eq_refl)).
Defined.
